(** * Triangle weight picker (entrada.js): geometry kernel, vertex locator
      and percentage rebalancing

    A shallow embedding of the numeric core of [src/entrada.js]:
    [area], [barycentric], [inside], [norm3p], [clamp01p], [baryToRGB],
    [rgbToBary], [detectVerticesByAlpha], and the closures of [initEntrada]
    that own the weight state ([setPerc], [rebalance], [handlePoint],
    [drawFromRGB], [getRGB]).

    Numbers.  A JavaScript number is modelled by [num]: an exact rational,
    or one of the three IEEE special values [+Infinity], [-Infinity], [NaN].
    Arithmetic on finite values is exact (no rounding), so a property the
    source only has "within floating tolerance" is stated here as an exact
    equality of rationals.  The sign of zero is not represented: a division
    by zero behaves as a division by [+0]. *)

From Stdlib Require Import QArith Qabs Qminmax Qround ZArith List Bool Lia Lqa.
Import ListNotations.

Local Open Scope Q_scope.

(* ================================================================== *)
(** ** JavaScript numbers *)

Module JSNum.

Inductive num : Type :=
| Fin (q : Q)
| PInf
| NInf
| NaN.

Declare Scope num_scope.
Delimit Scope num_scope with num.
Bind Scope num_scope with num.

(** Sign of a rational, as a [comparison] with zero. *)
Definition sgn (q : Q) : comparison := q ?= 0.

Definition nopp (a : num) : num :=
  match a with
  | Fin q => Fin (- q)
  | PInf => NInf
  | NInf => PInf
  | NaN => NaN
  end.

Definition nadd (a b : num) : num :=
  match a, b with
  | NaN, _ | _, NaN => NaN
  | Fin x, Fin y => Fin (x + y)
  | PInf, NInf | NInf, PInf => NaN
  | PInf, _ | _, PInf => PInf
  | NInf, _ | _, NInf => NInf
  end.

Definition nsub (a b : num) : num := nadd a (nopp b).

(** An infinity of the sign of [c] ([NaN] for a zero factor). *)
Definition inf_of_sign (c : comparison) : num :=
  match c with
  | Gt => PInf
  | Lt => NInf
  | Eq => NaN
  end.

Definition nmul (a b : num) : num :=
  match a, b with
  | NaN, _ | _, NaN => NaN
  | Fin x, Fin y => Fin (x * y)
  | PInf, Fin y | Fin y, PInf => inf_of_sign (sgn y)
  | NInf, Fin y | Fin y, NInf => inf_of_sign (CompOpp (sgn y))
  | PInf, PInf | NInf, NInf => PInf
  | PInf, NInf | NInf, PInf => NInf
  end.

(** [x / 0] is [NaN] for [x = 0] and an infinity of the sign of [x]
    otherwise; a finite value over an infinity is [0]. *)
Definition ndiv (a b : num) : num :=
  match a, b with
  | NaN, _ | _, NaN => NaN
  | Fin x, Fin y =>
      if Qeq_bool y 0 then inf_of_sign (sgn x) else Fin (x / y)
  | Fin _, (PInf | NInf) => Fin 0
  | PInf, Fin y => match sgn y with Lt => NInf | _ => PInf end
  | NInf, Fin y => match sgn y with Lt => PInf | _ => NInf end
  | (PInf | NInf), (PInf | NInf) => NaN
  end.

(** Ordering; [None] when an operand is [NaN] (every comparison is then
    false). *)
Definition ncompare (a b : num) : option comparison :=
  match a, b with
  | NaN, _ | _, NaN => None
  | Fin x, Fin y => Some (x ?= y)
  | PInf, PInf | NInf, NInf => Some Eq
  | PInf, _ | _, NInf => Some Gt
  | NInf, _ | _, PInf => Some Lt
  end.

Definition nge (a b : num) : bool :=
  match ncompare a b with Some (Gt | Eq) => true | _ => false end.
Definition ngt (a b : num) : bool :=
  match ncompare a b with Some Gt => true | _ => false end.
Definition nlt (a b : num) : bool :=
  match ncompare a b with Some Lt => true | _ => false end.
Definition nle (a b : num) : bool :=
  match ncompare a b with Some (Lt | Eq) => true | _ => false end.

(** [Math.max] and [Math.min] of two arguments: [NaN] if either is. *)
Definition Math_max (a b : num) : num :=
  match ncompare a b with
  | None => NaN
  | Some Lt => b
  | Some _ => a
  end.

Definition Math_min (a b : num) : num :=
  match ncompare a b with
  | None => NaN
  | Some Gt => b
  | Some _ => a
  end.

Definition Math_abs (a : num) : num :=
  match a with
  | Fin q => Fin (Qabs q)
  | PInf | NInf => PInf
  | NaN => NaN
  end.

(** Truthiness of a number: [0] and [NaN] are falsy. *)
Definition truthy (a : num) : bool :=
  match a with
  | Fin q => negb (Qeq_bool q 0)
  | PInf | NInf => true
  | NaN => false
  end.

(** [a || b] on numbers. *)
Definition or_else (a b : num) : num := if truthy a then a else b.

(** Equality of the values denoted (rationals up to [Qeq]). *)
Definition num_eq (a b : num) : Prop :=
  match a, b with
  | Fin x, Fin y => x == y
  | PInf, PInf | NInf, NInf | NaN, NaN => True
  | _, _ => False
  end.

Definition num_eqb (a b : num) : bool :=
  match a, b with
  | Fin x, Fin y => Qeq_bool x y
  | PInf, PInf | NInf, NInf | NaN, NaN => true
  | _, _ => false
  end.

Definition is_finite (a : num) : Prop :=
  match a with Fin _ => True | _ => False end.

End JSNum.
Export JSNum.

Notation "x + y" := (nadd x y) : num_scope.
Notation "x - y" := (nsub x y) : num_scope.
Notation "x * y" := (nmul x y) : num_scope.
Notation "x / y" := (ndiv x y) : num_scope.
Notation "x >=? y" := (nge x y) (at level 70) : num_scope.
Notation "x >? y" := (ngt x y) (at level 70) : num_scope.
Notation "x <? y" := (nlt x y) (at level 70) : num_scope.
Notation "x <=? y" := (nle x y) (at level 70) : num_scope.
Notation "x =n= y" := (num_eq x y) (at level 70) : num_scope.

Coercion Fin : Q >-> num.

Local Open Scope num_scope.

(* ================================================================== *)
(** ** Geometry kernel (entrada.js, lines 14-23) *)

(** A JavaScript object [{x, y}].  Coordinates are finite: pixel indices,
    offsets of the drawing rectangle and pointer positions. *)
Record point : Type := mkPoint { pt_x : Q; pt_y : Q }.

(** A three-element array [[a, b, c]] of numbers. *)
Definition vec3 : Type := (num * num * num)%type.

(** The labels ['R'], ['G'], ['B'] of the three percentage channels. *)
Inductive channel : Type := R | G | B.

Definition channel_eqb (a b : channel) : bool :=
  match a, b with
  | R, R | G, G | B, B => true
  | _, _ => false
  end.

(** [v[idx[lab]]] with [idx = {'R':0,'G':1,'B':2}]. *)
Definition get_chan (v : vec3) (lab : channel) : num :=
  let '(r, g, b) := v in
  match lab with R => r | G => g | B => b end.

(** [v[idx[lab]] = a]. *)
Definition set_chan (v : vec3) (lab : channel) (a : num) : vec3 :=
  let '(r, g, b) := v in
  match lab with R => (a, g, b) | G => (r, a, b) | B => (r, g, a) end.

(** [const area=(ax,ay,bx,by,cx,cy)=>(bx-ax)*(cy-ay)-(cx-ax)*(by-ay);] *)
Definition area (ax ay bx by_ cx cy : Q) : Q :=
  ((bx - ax) * (cy - ay) - (cx - ax) * (by_ - ay))%Q.

(** [function barycentric(px,py,A,B,C)]; the two divisions are divisions of
    JavaScript numbers, by zero for a degenerate triangle. *)
Definition barycentric (px py : Q) (A B C : point) : vec3 :=
  let d := area (pt_x A) (pt_y A) (pt_x B) (pt_y B) (pt_x C) (pt_y C) in
  let w1 := Fin (area px py (pt_x B) (pt_y B) (pt_x C) (pt_y C)) / Fin d in
  let w2 := Fin (area px py (pt_x C) (pt_y C) (pt_x A) (pt_y A)) / Fin d in
  let w3 := Fin 1 - w1 - w2 in
  (w1, w2, w3).

(** [area(A.x,A.y,B.x,B.y,C.x,C.y)]: twice the signed area of the triangle
    ABC, the divisor in [barycentric]. *)
Definition signedArea (A B C : point) : Q :=
  area (pt_x A) (pt_y A) (pt_x B) (pt_y B) (pt_x C) (pt_y C).

(** [const inside=(w,t=1e-6)=>w[0]>=t&&w[1]>=t&&w[2]>=t;] with the
    parameter [t] explicit. *)
Definition inside_tol (w : vec3) (t : num) : bool :=
  let '(w0, w1, w2) := w in
  (w0 >=? t) && (w1 >=? t) && (w2 >=? t).

(** [inside(w)]: the call with the default [t=1e-6]. *)
Definition inside (w : vec3) : bool := inside_tol w (Fin 0.000001).

(** [const norm3p=(r,g,b)=>{const s=Math.max(r+g+b,1e-12);
     return [r/s*100,g/s*100,b/s*100];};] *)
Definition norm3p (r g b : num) : vec3 :=
  let s := Math_max (r + g + b) (Fin 0.000000000001) in
  (r / s * Fin 100, g / s * Fin 100, b / s * Fin 100).

(** [const clamp01p=v=>Math.max(0,Math.min(100,v));] *)
Definition clamp01p (v : num) : num :=
  Math_max (Fin 0) (Math_min (Fin 100) v).

(** The array [vertexToChannel]: the labels of [top], [left], [right]. *)
Definition chanmap : Type := (channel * channel * channel)%type.

(** [DEFAULTS.vertexToChannel = ['B','R','G']]. *)
Definition DEFAULT_vertexToChannel : chanmap := (B, R, G).

(** [function baryToRGB([wt,wl,wr], map)] *)
Definition baryToRGB (w : vec3) (map : chanmap) : vec3 :=
  let '(wt, wl, wr) := w in
  let '(m0, m1, m2) := map in
  let out := (Fin 0, Fin 0, Fin 0) in
  let out := set_chan out m0 wt in
  let out := set_chan out m1 wl in
  let out := set_chan out m2 wr in
  let '(o0, o1, o2) := out in
  let s := Math_max (o0 + o1 + o2) (Fin 0.000000000001) in
  (o0 / s, o1 / s, o2 / s).

(** [function rgbToBary([r,g,b], map)] *)
Definition rgbToBary (v : vec3) (map : chanmap) : vec3 :=
  let '(m0, m1, m2) := map in
  (get_chan v m0, get_chan v m1, get_chan v m2).

(* ================================================================== *)
(** ** Vertex locator (entrada.js, lines 25-68) *)

(** The object [{top, left, right}]. *)
Record triangle : Type := mkTriangle {
  top : point;
  left : point;
  right : point
}.

(** The alpha threshold [TH]. *)
Definition TH : Z := 30.

(** [0, 1, ..., n-1]: the values a loop [for(let i=0;i<n;i++)] takes. *)
Definition upto (n : Z) : list Z := List.map Z.of_nat (seq 0 (Z.to_nat n)).

(** [data[(y*w+x)*4+3]]; [None] is [undefined], past the end of the
    array. *)
Definition alpha_at (data : list Z) (w x y : Z) : option Z :=
  nth_error data (Z.to_nat ((y * w + x) * 4 + 3)).

(** [alpha>=TH]; false for [undefined]. *)
Definition visible (data : list Z) (w x y : Z) : bool :=
  match alpha_at data w x y with
  | Some a => (TH <=? a)%Z
  | None => false
  end.

Definition pixel (x y : Z) : point := mkPoint (inject_Z x) (inject_Z y).

(** The array [pts] after the two nested loops, in push order. *)
Definition collect (data : list Z) (w h : Z) : list point :=
  flat_map
    (fun y =>
       flat_map (fun x => if visible data w x y then [pixel x y] else [])
                (upto w))
    (upto h).

(** The key ['x'] or ['y'] of [extreme]. *)
Inductive key : Type := KeyX | KeyY.

(** [p[key]] *)
Definition coord (k : key) (p : point) : Q :=
  match k with KeyX => pt_x p | KeyY => pt_y p end.

Definition Qltb (a b : Q) : bool :=
  match a ?= b with Lt => true | _ => false end.

(** The three fallback returns of [extreme], and of the early return of
    [detectVerticesByAlpha]. *)
Definition fallback (w h : Z) (k : key) (min : bool) : point :=
  match k with
  | KeyY => mkPoint (inject_Z w / 2) 0
  | KeyX => if min then mkPoint 0 (inject_Z (h - 1))
            else mkPoint (inject_Z (w - 1)) (inject_Z (h - 1))
  end.

(** [Math.min(...vs)] and [Math.max(...vs)] of a non-empty array. *)
Definition min_of (v0 : Q) (vs : list Q) : Q := fold_left Qmin vs v0.
Definition max_of (v0 : Q) (vs : list Q) : Q := fold_left Qmax vs v0.

(** [s.reduce((b,p)=>better(p,b)?p:b, s0)] *)
Definition pick (better : point -> point -> bool) (s : list point)
  (s0 : point) : point :=
  fold_left (fun b p => if better p b then p else b) s s0.

(** [sel.reduce((s,p)=>s+p.x,0)/sel.length], called on a non-empty
    [sel]. *)
Definition mean_x (sel : list point) : Q :=
  (fold_left (fun s p => s + pt_x p) sel 0
   / inject_Z (Z.of_nat (length sel)))%Q.

(** [pts.filter(p=>Math.abs(p[key]-ex)<=band)] *)
Definition in_band (k : key) (ex band : Q) (pts : list point) : list point :=
  filter (fun p => Qle_bool (Qabs (coord k p - ex)) band) pts.

(** The closure [extreme=(key,min=true,band=3)=>...] over [pts], [w], [h]. *)
Definition extreme (pts : list point) (w h : Z)
  (k : key) (min : bool) (band : Q) : point :=
  match pts with
  | [] => fallback w h k min
  | p0 :: _ =>
      match List.map (coord k) pts with
      | [] => fallback w h k min
      | v0 :: vs =>
          let ex := if min then min_of v0 vs else max_of v0 vs in
          let sel := in_band k ex band pts in
          match sel with
          | [] =>
              pick (fun p b => Qltb (Qabs (coord k p - ex))
                                    (Qabs (coord k b - ex))) pts p0
          | s0 :: _ =>
              match k with
              | KeyY =>
                  let cx := mean_x sel in
                  pick (fun p b => Qltb (Qabs (pt_x p - cx))
                                        (Qabs (pt_x b - cx))) sel s0
              | KeyX => pick (fun p b => Qltb (pt_y b) (pt_y p)) sel s0
              end
          end
      end
  end.

(** [function detectVerticesByAlpha(img,w,h)], from the array [data] that
    [getImageData] returns for the image drawn at [w] by [h]. *)
Definition detectVerticesByAlpha (data : list Z) (w h : Z) : triangle :=
  let pts := collect data w h in
  match pts with
  | [] => {| top := mkPoint (inject_Z w / 2) 0;
             left := mkPoint 0 (inject_Z (h - 1));
             right := mkPoint (inject_Z (w - 1)) (inject_Z (h - 1)) |}
  | _ :: _ =>
      {| top := extreme pts w h KeyY true 3;
         left := extreme pts w h KeyX true 3;
         right := extreme pts w h KeyX false 3 |}
  end.

(* ================================================================== *)
(** ** Weight state (closures of initEntrada, lines 109-129, 137-143
       and 175-176) *)

(** The session constants: the three screen vertices and the channel map. *)
Record config : Type := mkConfig {
  Vtop : point;
  Vleft : point;
  Vright : point;
  vertexToChannel : chanmap
}.

(** The mutable state: the three input fields and the array [rgb].  A
    field is represented by the number [parseFloat] reads from its text. *)
Record state : Type := mkState {
  rEl : num;
  gEl : num;
  bEl : num;
  rgb : vec3
}.

(** The multiple of 1/100 nearest to [q], ties away from zero: the value
    of the text [q.toFixed(2)]. *)
Definition round2 (q : Q) : Q :=
  let n := Qfloor (Qabs q * 100 + (1 # 2)) in
  if Qle_bool 0 q then inject_Z n / 100 else inject_Z (- n) / 100.

(** [parseFloat(a.toFixed(2))]: two decimals below 1e21, the number
    itself from 1e21 on; [NaN] and the infinities print and parse as
    themselves. *)
Definition toFixed2 (a : num) : num :=
  match a with
  | Fin q =>
      if Qle_bool 1000000000000000000000 (Qabs q) then Fin q
      else Fin (round2 q)
  | _ => a
  end.

(** [function setPerc(r,g,b,draw=true)]; the drawing is presentation. *)
Definition setPerc (r g b : num) (st : state) : state :=
  {| rEl := toFixed2 r; gEl := toFixed2 g; bEl := toFixed2 b;
     rgb := (r / Fin 100, g / Fin 100, b / Fin 100) |}.

(** The scale [k] of [rebalance]: [rem?(100-newVal)/rem:0.5]. *)
Definition scale_k (rem newVal : num) : num :=
  if truthy rem then (Fin 100 - newVal) / rem else Fin 0.5.

(** The triple that [rebalance] hands to [setPerc]. *)
Definition rebalance_vals (focus : channel) (newVal : num) (st : state)
  : vec3 :=
  let r := or_else (rEl st) (Fin 0) in
  let g := or_else (gEl st) (Fin 0) in
  let b := or_else (bEl st) (Fin 0) in
  let '(r, g, b) := norm3p r g b in
  let newVal := clamp01p newVal in
  let '(r, g, b) :=
    match focus with
    | R => let rem := g + b in let k := scale_k rem newVal in
           (newVal, g * k, b * k)
    | G => let rem := r + b in let k := scale_k rem newVal in
           (r * k, newVal, b * k)
    | B => let rem := r + g in let k := scale_k rem newVal in
           (r * k, g * k, newVal)
    end in
  let tot := r + g + b in
  if Math_abs (tot - Fin 100) >? Fin 0.001 then
    let r := if negb (channel_eqb focus R) then r * (Fin 100 / tot) else r in
    let g := if negb (channel_eqb focus G) then g * (Fin 100 / tot) else g in
    let b := if negb (channel_eqb focus B) then b * (Fin 100 / tot) else b in
    (r, g, b)
  else (r, g, b).

(** [function rebalance(focus,newVal)] *)
Definition rebalance (focus : channel) (newVal : num) (st : state) : state :=
  let '(r, g, b) := rebalance_vals focus newVal st in
  setPerc r g b st.

(** [const handlePoint=(mx,my)=>...]: the new state and the boolean
    returned. *)
Definition handlePoint (cfg : config) (mx my : Q) (st : state)
  : state * bool :=
  let wts := barycentric mx my (Vtop cfg) (Vleft cfg) (Vright cfg) in
  if negb (inside wts) then (st, false)
  else
    let '(r, g, b) := baryToRGB wts (vertexToChannel cfg) in
    (setPerc (r * Fin 100) (g * Fin 100) (b * Fin 100) st, true).

(** [wt*Vtop.x+wl*Vleft.x+wr*Vright.x] and the same on [y]: the point a
    triple of vertex weights denotes. *)
Definition combine (w : vec3) (T L Rt : point) : num * num :=
  let '(wt, wl, wr) := w in
  (wt * Fin (pt_x T) + wl * Fin (pt_x L) + wr * Fin (pt_x Rt),
   wt * Fin (pt_y T) + wl * Fin (pt_y L) + wr * Fin (pt_y Rt)).

(** The point [[px,py]] that [drawFromRGB] passes to [drawScene]. *)
Definition drawFromRGB (cfg : config) (st : state) : num * num :=
  combine (rgbToBary (rgb st) (vertexToChannel cfg))
          (Vtop cfg) (Vleft cfg) (Vright cfg).

(** [getRGB:()=>({r:rgb[0],g:rgb[1],b:rgb[2]})], the record as the triple
    of its fields [r], [g], [b]. *)
Definition getRGB (st : state) : vec3 :=
  let '(r, g, b) := rgb st in (r, g, b).

(** The state when [initEntrada] returns: [let rgb=[1/3,1/3,1/3]] and
    then [setPerc(33.3333,33.3333,33.3333)], which overwrites the three
    fields and [rgb]. *)
Definition initial_state : state :=
  setPerc (Fin 33.3333) (Fin 33.3333) (Fin 33.3333)
    {| rEl := NaN; gEl := NaN; bEl := NaN;
       rgb := (Fin 1 / Fin 3, Fin 1 / Fin 3, Fin 1 / Fin 3) |}.

(** Equality of triples and of states, up to the representation of the
    rationals. *)
Definition vec3_eq (u v : vec3) : Prop :=
  let '(a, b, c) := u in
  let '(a', b', c') := v in
  a =n= a' /\ b =n= b' /\ c =n= c'.

Definition vec3_eqb (u v : vec3) : bool :=
  let '(a, b, c) := u in
  let '(a', b', c') := v in
  num_eqb a a' && num_eqb b b' && num_eqb c c'.

(** [a + b + c] of an array [[a,b,c]]. *)
Definition vsum (v : vec3) : num :=
  let '(a, b, c) := v in a + b + c.

(** The listeners of lines 131-135: the user's text [typed] is in the field
    [focus] when [rebalance(focus, parseFloat(field.value)||0)] runs. *)
Definition set_field (focus : channel) (typed : num) (st : state) : state :=
  match focus with
  | R => {| rEl := typed; gEl := gEl st; bEl := bEl st; rgb := rgb st |}
  | G => {| rEl := rEl st; gEl := typed; bEl := bEl st; rgb := rgb st |}
  | B => {| rEl := rEl st; gEl := gEl st; bEl := typed; rgb := rgb st |}
  end.

Definition on_input (focus : channel) (typed : num) (st : state) : state :=
  rebalance focus (or_else typed (Fin 0)) (set_field focus typed st).

(** The states a session goes through: the initial one, then one step per
    accepted pointer position or field edit. *)
Inductive reachable (cfg : config) : state -> Prop :=
| reach_init : reachable cfg initial_state
| reach_point : forall st mx my,
    reachable cfg st -> reachable cfg (fst (handlePoint cfg mx my st))
| reach_input : forall st focus typed,
    reachable cfg st -> reachable cfg (on_input focus typed st).

(* ================================================================== *)
(** ** Layout, pointer events and the confirmation text (initEntrada,
       lines 95-107, 144-157 and 160-167) *)

(** [Math.round] (ties towards +Infinity) and [Math.floor], on a finite
    number. *)
Definition Math_round (q : Q) : Z := Qfloor (q + (1 # 2)).
Definition Math_floor (q : Q) : Z := Qfloor q.

(** The object [rect = {x, y, w, h}]. *)
Record rect : Type := mkRect {
  rect_x : Z;
  rect_y : Z;
  rect_w : Z;
  rect_h : Z
}.

Definition padTop : Z := 30.
Definition padBottom : Z := 30.

(** Lines 95-102: the rectangle the image is drawn in, from the canvas
    size [cw] by [ch] and the image size [iw] by [ih].  The two quotients
    are those of an image of non-zero size. *)
Definition layout (cw ch iw ih : Z) : rect :=
  let maxW := (cw - 40)%Z in
  let maxH := (ch - padTop - padBottom)%Z in
  let scale :=
    (Qmin (inject_Z maxW / inject_Z iw) (inject_Z maxH / inject_Z ih)
     * 0.7)%Q in
  let w := Math_round (inject_Z iw * scale) in
  let h := Math_round (inject_Z ih * scale) in
  let x := Math_floor (inject_Z (cw - w) / 2) in
  let y :=
    (padTop + Math_floor (inject_Z (ch - padTop - padBottom - h) * 0.5))%Z in
  mkRect x y w h.

(** [{x:x+v.x, y:y+v.y}]: an image-local point on the canvas. *)
Definition on_canvas (rc : rect) (v : point) : point :=
  mkPoint (inject_Z (rect_x rc) + pt_x v) (inject_Z (rect_y rc) + pt_y v).

(** Lines 104-107: the screen vertices [Vtop], [Vleft], [Vright] of a
    session, with its channel map. *)
Definition session_config (rc : rect) (data : list Z) (map : chanmap)
  : config :=
  let v := detectVerticesByAlpha data (rect_w rc) (rect_h rc) in
  mkConfig (on_canvas rc (top v)) (on_canvas rc (left v))
           (on_canvas rc (right v)) map.

(** The events the listeners of lines 131-157 react to; a pointer event
    carries [e.clientX-r.left] and [e.clientY-r.top]. *)
Inductive event : Type :=
| MouseDown (mx my : Q)
| MouseMove (mx my : Q)
| MouseUp
| Click (mx my : Q)
| InputEdit (focus : channel) (typed : num).

(** The weight state together with the flag [dragging]. *)
Record session : Type := mkSession {
  weights : state;
  dragging : bool
}.

(** [let rgb=[1/3,1/3,1/3]; let dragging=false;] and the first [setPerc]. *)
Definition initial_session : session := mkSession initial_state false.

(** One listener call. *)
Definition step (cfg : config) (s : session) (e : event) : session :=
  match e with
  | MouseDown mx my =>
      let '(st, hit) := handlePoint cfg mx my (weights s) in
      mkSession st hit
  | MouseMove mx my =>
      if negb (dragging s) then s
      else mkSession (fst (handlePoint cfg mx my (weights s))) (dragging s)
  | MouseUp => mkSession (weights s) false
  | Click mx my =>
      mkSession (fst (handlePoint cfg mx my (weights s))) (dragging s)
  | InputEdit focus typed =>
      mkSession (on_input focus typed (weights s)) (dragging s)
  end.

(** The listener calls of a list of events, in order. *)
Definition run (cfg : config) (s : session) (es : list event) : session :=
  fold_left (step cfg) es s.

(** The three numbers of the confirmation text,
    [(r*100).toFixed(2)], [(g*100).toFixed(2)], [(b*100).toFixed(2)]. *)
Definition dialog_percent (st : state) : vec3 :=
  let '(r, g, b) := rgb st in
  (toFixed2 (r * Fin 100), toFixed2 (g * Fin 100), toFixed2 (b * Fin 100)).

(** The three fields, as a triple. *)
Definition fields (st : state) : vec3 := (rEl st, gEl st, bEl st).

(* ================================================================== *)
(** ** Notions used in the statements *)

(** The mathematical clamp to the closed interval [0,100]. *)
Definition clamp_0_100 (v : Q) : Q := Qmax 0 (Qmin 100 v).

(** The value of [q || 0] for a finite [q]. *)
Definition qor0 (q : Q) : Q := if Qeq_bool q 0 then 0 else q.

(** The sum of the two fields other than the focus. *)
Definition others_sum (focus : channel) (r g b : Q) : Q :=
  (match focus with R => g + b | G => r + b | B => r + g end)%Q.

(** The two fields other than the focus are both 0. *)
Definition others_zero (focus : channel) (r g b : Q) : Prop :=
  match focus with
  | R => g == 0 /\ b == 0
  | G => r == 0 /\ b == 0
  | B => r == 0 /\ g == 0
  end.

(** The channel map assigns three different labels. *)
Definition is_bijection (map : chanmap) : bool :=
  let '(m0, m1, m2) := map in
  negb (channel_eqb m0 m1) && negb (channel_eqb m0 m2)
  && negb (channel_eqb m1 m2).

(** A point strictly outside the bounding box of the three vertices: to
    the left of all three, to the right of all three, above or below. *)
Definition outside_bbox (px py : Q) (A B C : point) : Prop :=
  (px < pt_x A /\ px < pt_x B /\ px < pt_x C)
  \/ (pt_x A < px /\ pt_x B < px /\ pt_x C < px)
  \/ (py < pt_y A /\ py < pt_y B /\ py < pt_y C)
  \/ (pt_y A < py /\ pt_y B < py /\ pt_y C < py).

(** [m] is the least (greatest) value of the coordinate [k] over [pts]. *)
Definition is_min_coord (k : key) (pts : list point) (m : Q) : Prop :=
  (exists p, In p pts /\ coord k p = m)
  /\ (forall p, In p pts -> m <= coord k p).

Definition is_max_coord (k : key) (pts : list point) (m : Q) : Prop :=
  (exists p, In p pts /\ coord k p = m)
  /\ (forall p, In p pts -> coord k p <= m).

(** A pointer event at a position [inside] rejects, or a [mouseup]. *)
Definition misses (cfg : config) (e : event) : Prop :=
  match e with
  | MouseDown mx my | MouseMove mx my | Click mx my =>
      inside (barycentric mx my (Vtop cfg) (Vleft cfg) (Vright cfg)) = false
  | MouseUp => True
  | InputEdit _ _ => False
  end.

(* ================================================================== *)
(** ** Concrete sessions and inputs *)

(** The triangle of the specification's scenarios, with the default
    channel map. *)
Definition tri_top : point := mkPoint 50 0.
Definition tri_left : point := mkPoint 0 100.
Definition tri_right : point := mkPoint 100 100.

Definition cfg_scenario : config :=
  mkConfig tri_top tri_left tri_right DEFAULT_vertexToChannel.

(** The session after the user has typed 100 into the R field of the
    initial state: the fields show 100.00 / 0.00 / 0.00. *)
Definition st_R100 : state := on_input R (Fin 100) initial_state.

(** The session after the user has typed 10 into the R field of the
    initial state: the fields show 10.00 / 45.00 / 45.00. *)
Definition st_R10 : state := on_input R (Fin 10) initial_state.

(** The fields show 0.00 / 0.00 / 100.00. *)
Definition st_B100 : state :=
  {| rEl := Fin 0; gEl := Fin 0; bEl := Fin 100;
     rgb := (Fin 0, Fin 0, Fin 1) |}.

(** A 2 by 2 image, four bytes per pixel, every alpha 0. *)
Definition img_transparent : list Z :=
  [0; 0; 0; 0;  0; 0; 0; 0;  0; 0; 0; 0;  0; 0; 0; 0]%Z.

(** A 4 by 2 image: alpha 255 at (1,0), (2,0), (0,1), (1,1), (2,1), alpha
    40 at (3,1), alpha 0 elsewhere. *)
Definition img_glyph : list Z :=
  [0; 0; 0; 0;  0; 0; 0; 255;  0; 0; 0; 255;  0; 0; 0; 0;
   0; 0; 0; 255;  0; 0; 0; 255;  0; 0; 0; 255;  0; 0; 0; 40]%Z.

(** Three collinear screen vertices, with the default channel map. *)
Definition cfg_flat : config :=
  mkConfig (mkPoint 0 0) (mkPoint 10 10) (mkPoint 20 20)
           DEFAULT_vertexToChannel.

(** The image [img_glyph] drawn at the origin, 4 by 2. *)
Definition rc_glyph : rect := mkRect 0 0 4 2.

(* ================================================================== *)
(** ** Facts on numbers *)

Section NumFacts.

Lemma Qeq_bool_false (x y : Q) : Qeq_bool x y = false <-> ~ x == y.
Proof.
  split.
  - intros H E. apply Qeq_bool_iff in E. congruence.
  - intros H. destruct (Qeq_bool x y) eqn:E; [|reflexivity].
    apply Qeq_bool_iff in E. contradiction.
Qed.

Lemma ndiv_fin (a b : Q) : ~ b == 0 -> Fin a / Fin b = Fin (a / b).
Proof.
  intros H. simpl. apply Qeq_bool_false in H. now rewrite H.
Qed.

Lemma nge_fin (a b : Q) : (Fin a >=? Fin b) = true <-> b <= a.
Proof.
  unfold nge; simpl. rewrite Qle_alt, <- (Qcompare_antisym a b).
  destruct (a ?= b); simpl; split; intros; congruence.
Qed.

Lemma ngt_fin (a b : Q) : (Fin a >? Fin b) = true <-> b < a.
Proof.
  unfold ngt; simpl. rewrite Qgt_alt.
  destruct (a ?= b); simpl; split; intros; congruence.
Qed.

Lemma ngt_fin_false (a b : Q) : (Fin a >? Fin b) = false <-> a <= b.
Proof.
  unfold ngt; simpl. rewrite Qle_alt.
  destruct (a ?= b); simpl; split; intros; congruence.
Qed.

Lemma truthy_fin (q : Q) : truthy (Fin q) = true <-> ~ q == 0.
Proof.
  simpl. rewrite negb_true_iff. apply Qeq_bool_false.
Qed.

Lemma truthy_fin_false (q : Q) : truthy (Fin q) = false <-> q == 0.
Proof.
  simpl. rewrite negb_false_iff. apply Qeq_bool_iff.
Qed.

Lemma Math_max_Fin (a b : Q) : Math_max (Fin a) (Fin b) = Fin (Qmax a b).
Proof.
  unfold Math_max, Qmax, GenericMinMax.gmax; simpl.
  destruct (a ?= b); reflexivity.
Qed.

Lemma Math_min_Fin (a b : Q) : Math_min (Fin a) (Fin b) = Fin (Qmin a b).
Proof.
  unfold Math_min, Qmin, GenericMinMax.gmin; simpl.
  destruct (a ?= b); reflexivity.
Qed.

Lemma or_else_Fin (q : Q) : or_else (Fin q) (Fin 0) = Fin (qor0 q).
Proof.
  unfold or_else, qor0; simpl. destruct (Qeq_bool q 0); reflexivity.
Qed.

Lemma qor0_eq (q : Q) : qor0 q == q.
Proof.
  unfold qor0. destruct (Qeq_bool q 0) eqn:E; [|reflexivity].
  apply Qeq_bool_iff in E. now symmetry.
Qed.

Lemma nadd_Fin (a b : Q) : Fin a + Fin b = Fin (a + b).
Proof. reflexivity. Qed.

Lemma nsub_Fin (a b : Q) : Fin a - Fin b = Fin (a + - b).
Proof. reflexivity. Qed.

Lemma nmul_Fin (a b : Q) : Fin a * Fin b = Fin (a * b).
Proof. reflexivity. Qed.

Lemma Math_abs_Fin (a : Q) : Math_abs (Fin a) = Fin (Qabs a).
Proof. reflexivity. Qed.

Lemma num_eq_refl (a : num) : a =n= a.
Proof. destruct a; simpl; auto. reflexivity. Qed.

Lemma num_eq_sym (a b : num) : a =n= b -> b =n= a.
Proof. destruct a, b; simpl; auto. intros H; now symmetry. Qed.

Lemma num_eq_trans (a b c : num) : a =n= b -> b =n= c -> a =n= c.
Proof.
  destruct a, b, c; simpl; auto; try contradiction.
  intros H1 H2. now rewrite H1.
Qed.

Lemma num_eqb_spec (a b : num) : num_eqb a b = true <-> a =n= b.
Proof.
  destruct a, b; simpl; try (split; [discriminate | contradiction]);
    try (split; auto).
  - apply Qeq_bool_iff.
  - apply Qeq_bool_iff.
Qed.

Lemma vec3_eqb_spec (u v : vec3) : vec3_eqb u v = true <-> vec3_eq u v.
Proof.
  destruct u as [[a b] c], v as [[a' b'] c']. unfold vec3_eqb, vec3_eq.
  rewrite !andb_true_iff, !num_eqb_spec. tauto.
Qed.

Lemma num_eqb_true (a b : num) : num_eqb a b = true -> a =n= b.
Proof. apply num_eqb_spec. Qed.

Lemma vec3_eqb_true (u v : vec3) : vec3_eqb u v = true -> vec3_eq u v.
Proof. apply vec3_eqb_spec. Qed.

Lemma num_eqb_false (a b : num) : num_eqb a b = false -> ~ a =n= b.
Proof. intros H E. apply num_eqb_spec in E. congruence. Qed.

Lemma vec3_eqb_false (u v : vec3) : vec3_eqb u v = false -> ~ vec3_eq u v.
Proof. intros H E. apply vec3_eqb_spec in E. congruence. Qed.

End NumFacts.

Create Rewrite HintDb fin.
#[global] Hint Rewrite nadd_Fin nsub_Fin nmul_Fin Math_abs_Fin : fin.

(** Conjunctions are split without unfolding the equalities of triples;
    closed goals are decided by evaluation. *)
Ltac split_all := repeat match goal with |- _ /\ _ => split end.
Ltac by_eval :=
  lazymatch goal with
  | |- vec3_eq _ _ => apply vec3_eqb_true; vm_compute; reflexivity
  | |- num_eq _ _ => apply num_eqb_true; vm_compute; reflexivity
  | |- ~ vec3_eq _ _ => apply vec3_eqb_false; vm_compute; reflexivity
  | |- ~ num_eq _ _ => apply num_eqb_false; vm_compute; reflexivity
  | |- _ => vm_compute; reflexivity
  end.

(* ================================================================== *)
(** ** The percentage normaliser and the clamp *)

(** C10: [norm3p(0,0,0)] is [(0,0,0)]: the guard [Math.max(r+g+b,1e-12)]
    makes the divisor [1e-12], so every component is the finite number 0
    (no [NaN], no division by zero), and the triple sums to 0, not 100. *)
Theorem norm3p_all_zero :
  vec3_eq (norm3p (Fin 0) (Fin 0) (Fin 0)) (Fin 0, Fin 0, Fin 0)
  /\ vsum (norm3p (Fin 0) (Fin 0) (Fin 0)) =n= Fin 0
  /\ ~ vsum (norm3p (Fin 0) (Fin 0) (Fin 0)) =n= Fin 100.
Proof.
  split_all; by_eval.
Qed.

Lemma clamp01p_Fin (v : Q) : clamp01p (Fin v) = Fin (clamp_0_100 v).
Proof.
  unfold clamp01p, clamp_0_100. now rewrite Math_min_Fin, Math_max_Fin.
Qed.

Lemma clamp_0_100_range (v : Q) : 0 <= clamp_0_100 v /\ clamp_0_100 v <= 100.
Proof.
  unfold clamp_0_100. split.
  - apply Q.le_max_l.
  - apply Q.max_lub; [discriminate | apply Q.le_min_l].
Qed.

(* ================================================================== *)
(** ** Rebalancing after a field edit *)

(** The focus channel of the triple handed to [setPerc] is the clamped
    new value, whatever the fields held. *)
Lemma rebalance_vals_focus (focus : channel) (newVal : num) (st : state) :
  get_chan (rebalance_vals focus newVal st) focus = clamp01p newVal.
Proof.
  unfold rebalance_vals.
  destruct (norm3p _ _ _) as [[r g] b].
  destruct focus; cbv zeta;
    match goal with |- context [if ?c then _ else _] => destruct c end;
    reflexivity.
Qed.

(** C4: after [rebalance(c, v)] the focus channel of the published triple
    is exactly [clamp01p(v)], for every prior state and every [v]: the
    residual fix-up skips the focus channel.  The stored fraction is that
    value over 100, and for a finite [v] the value is the clamp of [v] to
    [0,100]. *)
Theorem rebalance_focus_is_clamped :
  forall (focus : channel) (newVal : num) (v : Q) (st : state),
    get_chan (rebalance_vals focus newVal st) focus = clamp01p newVal
    /\ get_chan (getRGB (rebalance focus newVal st)) focus
       = clamp01p newVal / Fin 100
    /\ get_chan (rebalance_vals focus (Fin v) st) focus
       = Fin (clamp_0_100 v).
Proof.
  intros focus newVal v st.
  pose proof (rebalance_vals_focus focus newVal st) as H.
  split; [exact H|]. split.
  - unfold rebalance, getRGB.
    destruct (rebalance_vals focus newVal st) as [[r g] b].
    destruct focus; simpl in *; now subst.
  - rewrite rebalance_vals_focus. apply clamp01p_Fin.
Qed.

(** C3 (as amended): from the fields 0 / 0 / 100, [rebalance('R', 50)]
    publishes R=50, G=0, B=50: [rem = g+b] is 100, not 0, so the scale is
    [k = (100-50)/100] and G stays 0. *)
Theorem rebalance_R50_from_B100 :
  vec3_eq (rebalance_vals R (Fin 50) st_B100) (Fin 50, Fin 0, Fin 50)
  /\ vec3_eq (getRGB (rebalance R (Fin 50) st_B100))
             (Fin 0.5, Fin 0, Fin 0.5)
  /\ vec3_eq (getRGB (on_input R (Fin 50) st_B100))
             (Fin 0.5, Fin 0, Fin 0.5).
Proof.
  split_all; by_eval.
Qed.

(** C3, the scenario as written: the result is not R=50, G=25, B=25. *)
Lemma rebalance_R50_from_B100_not_25_25 :
  ~ vec3_eq (rebalance_vals R (Fin 50) st_B100) (Fin 50, Fin 25, Fin 25).
Proof.
  by_eval.
Qed.

(** C1, at a state a session reaches: the fields show 100.00 / 0.00 / 0.00
    (the user typed 100 into R), then R is edited to 50.  Both other
    channels are 0, the scale [0.5] and the fix-up factor [100/tot]
    multiply zeros, and the published triple is 50 / 0 / 0, of sum 50.
    Edited to 0 instead, the total is 0 and the two other channels are
    published as [NaN]. *)
Theorem rebalance_sum_not_100 :
  forall cfg : config,
    reachable cfg st_R100
    /\ (rEl st_R100 =n= Fin 100 /\ gEl st_R100 =n= Fin 0
        /\ bEl st_R100 =n= Fin 0)
    /\ vec3_eq (rebalance_vals R (Fin 50) st_R100) (Fin 50, Fin 0, Fin 0)
    /\ vsum (rebalance_vals R (Fin 50) st_R100) =n= Fin 50
    /\ vec3_eq (getRGB (on_input R (Fin 50) st_R100)) (Fin 0.5, Fin 0, Fin 0)
    /\ (Math_abs (vsum (rebalance_vals R (Fin 50) st_R100) - Fin 100)
        >? Fin 0.001) = true
    /\ vec3_eq (getRGB (on_input R (Fin 0) st_R100)) (Fin 0, NaN, NaN).
Proof.
  intros cfg. split.
  - unfold st_R100. apply reach_input, reach_init.
  - split_all; by_eval.
Qed.

(* ================================================================== *)
(** ** Barycentric coordinates *)

Section Barycentric.

Variables (px py : Q) (A B C : point).

(** With a non-zero denominator the three weights are finite. *)
Lemma barycentric_fin :
  ~ signedArea A B C == 0 ->
  barycentric px py A B C
  = (Fin (signedArea (mkPoint px py) B C / signedArea A B C),
     Fin (signedArea (mkPoint px py) C A / signedArea A B C),
     Fin (1 + - (signedArea (mkPoint px py) B C / signedArea A B C)
          + - (signedArea (mkPoint px py) C A / signedArea A B C))).
Proof.
  intros Hd. unfold barycentric, signedArea in *. cbn [pt_x pt_y].
  rewrite !ndiv_fin by exact Hd. reflexivity.
Qed.

(** The weights give the point back, on both axes. *)
Lemma weights_recombine :
  ~ signedArea A B C == 0 ->
  signedArea (mkPoint px py) B C / signedArea A B C * pt_x A
  + signedArea (mkPoint px py) C A / signedArea A B C * pt_x B
  + (1 + - (signedArea (mkPoint px py) B C / signedArea A B C)
     + - (signedArea (mkPoint px py) C A / signedArea A B C)) * pt_x C
  == px
  /\ signedArea (mkPoint px py) B C / signedArea A B C * pt_y A
     + signedArea (mkPoint px py) C A / signedArea A B C * pt_y B
     + (1 + - (signedArea (mkPoint px py) B C / signedArea A B C)
        + - (signedArea (mkPoint px py) C A / signedArea A B C)) * pt_y C
     == py.
Proof.
  intros Hd. unfold signedArea, area in *. cbn [pt_x pt_y].
  split; field; exact Hd.
Qed.

(** A degenerate triangle (zero denominator) accepts no point: the first
    two weights are infinite or [NaN]. *)
Lemma inside_degenerate :
  signedArea A B C == 0 -> inside (barycentric px py A B C) = false.
Proof.
  intros Hd. unfold barycentric. unfold signedArea in Hd.
  apply Qeq_bool_iff in Hd. unfold ndiv. rewrite Hd.
  destruct (sgn (area px py (pt_x B) (pt_y B) (pt_x C) (pt_y C))),
           (sgn (area px py (pt_x C) (pt_y C) (pt_x A) (pt_y A)));
    reflexivity.
Qed.

Lemma inside_fin (w0 w1 w2 : Q) :
  inside (Fin w0, Fin w1, Fin w2) = true
  <-> 0.000001 <= w0 /\ 0.000001 <= w1 /\ 0.000001 <= w2.
Proof.
  unfold inside, inside_tol. rewrite !andb_true_iff, !nge_fin. tauto.
Qed.

(** Acceptance of a point, in terms of the rational weights. *)
Lemma inside_barycentric :
  ~ signedArea A B C == 0 ->
  (inside (barycentric px py A B C) = true
   <-> 0.000001 <= signedArea (mkPoint px py) B C / signedArea A B C
       /\ 0.000001 <= signedArea (mkPoint px py) C A / signedArea A B C
       /\ 0.000001
          <= 1 + - (signedArea (mkPoint px py) B C / signedArea A B C)
             + - (signedArea (mkPoint px py) C A / signedArea A B C)).
Proof.
  intros Hd. rewrite (barycentric_fin Hd). apply inside_fin.
Qed.

End Barycentric.

(** C6: for a triangle of non-zero signed area and any point (inside or
    not), the weights [barycentric] returns are finite, sum to 1, and the
    combination [w1*A + w2*B + w3*C] that [drawFromRGB] computes is the
    point itself, on both coordinates. *)
Theorem barycentric_roundtrip (px py : Q) (A B C : point)
  (Hnd : ~ signedArea A B C == 0) :
  exists w1 w2 w3 : Q,
    barycentric px py A B C = (Fin w1, Fin w2, Fin w3)
    /\ w1 + w2 + w3 == 1
    /\ fst (combine (barycentric px py A B C) A B C) =n= Fin px
    /\ snd (combine (barycentric px py A B C) A B C) =n= Fin py.
Proof.
  pose proof (barycentric_fin px py A B C Hnd) as E.
  pose proof (weights_recombine px py A B C Hnd) as [Hx Hy].
  eexists _, _, _. split; [exact E|]. split; [ring|].
  rewrite E. simpl. split; assumption.
Qed.

(** The scenario triangle and the interior point (40, 60). *)
Lemma barycentric_roundtrip_witness :
  exists w1 w2 w3 : Q,
    barycentric 40 60 tri_top tri_left tri_right = (Fin w1, Fin w2, Fin w3)
    /\ w1 + w2 + w3 == 1
    /\ fst (combine (barycentric 40 60 tri_top tri_left tri_right)
              tri_top tri_left tri_right) =n= Fin 40
    /\ snd (combine (barycentric 40 60 tri_top tri_left tri_right)
              tri_top tri_left tri_right) =n= Fin 60.
Proof.
  apply (barycentric_roundtrip 40 60 tri_top tri_left tri_right).
  vm_compute. discriminate.
Defined.

(* ================================================================== *)
(** ** The point-in-triangle test *)

Section Inside.

Variables (A B C : point).
Hypothesis Hnd : ~ signedArea A B C == 0.

Lemma inside_centroid :
  inside (barycentric ((pt_x A + pt_x B + pt_x C) / 3)
                      ((pt_y A + pt_y B + pt_y C) / 3) A B C) = true.
Proof.
  apply inside_barycentric; [exact Hnd|].
  set (gx := ((pt_x A + pt_x B + pt_x C) / 3)%Q).
  set (gy := ((pt_y A + pt_y B + pt_y C) / 3)%Q).
  assert (E1 : signedArea (mkPoint gx gy) B C / signedArea A B C == 1 # 3).
  { unfold gx, gy, signedArea, area in *. cbn [pt_x pt_y]. field.
    exact Hnd. }
  assert (E2 : signedArea (mkPoint gx gy) C A / signedArea A B C == 1 # 3).
  { unfold gx, gy, signedArea, area in *. cbn [pt_x pt_y]. field.
    exact Hnd. }
  rewrite E1, E2. repeat split; discriminate.
Qed.

(** A weight that is 0 fails the test [w >= 1e-6]. *)
Lemma inside_zero_weight (px py : Q) :
  signedArea (mkPoint px py) B C == 0
  \/ signedArea (mkPoint px py) C A == 0 ->
  inside (barycentric px py A B C) = false.
Proof.
  intros H. apply not_true_is_false. intros T.
  apply inside_barycentric in T; [|exact Hnd].
  destruct T as (T1 & T2 & _).
  destruct H as [H|H]; rewrite H in *.
  - unfold Qdiv in T1. rewrite Qmult_0_l in T1. now apply T1.
  - unfold Qdiv in T2. rewrite Qmult_0_l in T2. now apply T2.
Qed.

Lemma inside_vertices :
  inside (barycentric (pt_x A) (pt_y A) A B C) = false
  /\ inside (barycentric (pt_x B) (pt_y B) A B C) = false
  /\ inside (barycentric (pt_x C) (pt_y C) A B C) = false.
Proof.
  split_all; apply inside_zero_weight.
  - right. unfold signedArea, area. cbn [pt_x pt_y]. ring.
  - left. unfold signedArea, area. cbn [pt_x pt_y]. ring.
  - left. unfold signedArea, area. cbn [pt_x pt_y]. ring.
Qed.

(** Positive weights of sum 1 cannot place [p] on one side of all three
    coordinates. *)
Lemma convex_not_below (w1 w2 w3 a b c p : Q) :
  0 < w1 -> 0 < w2 -> 0 < w3 -> w1 + w2 + w3 == 1 ->
  w1 * a + w2 * b + w3 * c == p ->
  ~ (p < a /\ p < b /\ p < c).
Proof.
  intros H1 H2 H3 S E (Ha & Hb & Hc).
  assert (P1 : 0 < w1 * (a - p)) by (apply Qmult_lt_0_compat; lra).
  assert (P2 : 0 < w2 * (b - p)) by (apply Qmult_lt_0_compat; lra).
  assert (P3 : 0 < w3 * (c - p)) by (apply Qmult_lt_0_compat; lra).
  assert (Z : w1 * (a - p) + w2 * (b - p) + w3 * (c - p)
              == w1 * a + w2 * b + w3 * c - p * (w1 + w2 + w3)) by ring.
  rewrite E, S in Z. lra.
Qed.

Lemma convex_not_above (w1 w2 w3 a b c p : Q) :
  0 < w1 -> 0 < w2 -> 0 < w3 -> w1 + w2 + w3 == 1 ->
  w1 * a + w2 * b + w3 * c == p ->
  ~ (a < p /\ b < p /\ c < p).
Proof.
  intros H1 H2 H3 S E (Ha & Hb & Hc).
  apply (convex_not_below w1 w2 w3 (- a) (- b) (- c) (- p)); auto.
  - rewrite <- E. ring.
  - lra.
Qed.

Lemma inside_outside_bbox (px py : Q) :
  outside_bbox px py A B C -> inside (barycentric px py A B C) = false.
Proof.
  intros Hout. apply not_true_is_false. intros T.
  apply inside_barycentric in T; [|exact Hnd].
  destruct T as (T1 & T2 & T3).
  destruct (weights_recombine px py A B C Hnd) as [Ex Ey].
  set (w1 := (signedArea (mkPoint px py) B C / signedArea A B C)%Q) in *.
  set (w2 := (signedArea (mkPoint px py) C A / signedArea A B C)%Q) in *.
  assert (P1 : 0 < w1) by (eapply Qlt_le_trans; [|exact T1]; reflexivity).
  assert (P2 : 0 < w2) by (eapply Qlt_le_trans; [|exact T2]; reflexivity).
  assert (P3 : 0 < 1 + - w1 + - w2)
    by (eapply Qlt_le_trans; [|exact T3]; reflexivity).
  assert (S : w1 + w2 + (1 + - w1 + - w2) == 1) by ring.
  destruct Hout as [H|[H|[H|H]]].
  - exact (convex_not_below _ _ _ _ _ _ _ P1 P2 P3 S Ex H).
  - exact (convex_not_above _ _ _ _ _ _ _ P1 P2 P3 S Ex H).
  - exact (convex_not_below _ _ _ _ _ _ _ P1 P2 P3 S Ey H).
  - exact (convex_not_above _ _ _ _ _ _ _ P1 P2 P3 S Ey H).
Qed.

End Inside.

(** C2 (as amended): [inside(w)] with the default [t = 1e-6] is true
    exactly when the three weights are at least [+1e-6].  For a triangle
    of non-zero area the centroid is inside; the three vertices (and any
    point with a zero weight, so any point on an edge) are not; a point
    outside the bounding box is not. *)
Theorem inside_margin_spec (A B C : point)
  (Hnd : ~ signedArea A B C == 0) :
  (forall w0 w1 w2 : Q,
      inside (Fin w0, Fin w1, Fin w2) = true
      <-> 0.000001 <= w0 /\ 0.000001 <= w1 /\ 0.000001 <= w2)
  /\ inside (barycentric ((pt_x A + pt_x B + pt_x C) / 3)
                         ((pt_y A + pt_y B + pt_y C) / 3) A B C) = true
  /\ inside (barycentric (pt_x A) (pt_y A) A B C) = false
  /\ inside (barycentric (pt_x B) (pt_y B) A B C) = false
  /\ inside (barycentric (pt_x C) (pt_y C) A B C) = false
  /\ (forall px py : Q,
        outside_bbox px py A B C ->
        inside (barycentric px py A B C) = false).
Proof.
  split; [intros; apply inside_fin|].
  split; [apply inside_centroid; exact Hnd|].
  pose proof (inside_vertices A B C Hnd) as (Ha & Hb & Hc).
  split_all; auto.
  intros px py. apply inside_outside_bbox. exact Hnd.
Qed.

Lemma inside_margin_spec_witness :
  (forall w0 w1 w2 : Q,
      inside (Fin w0, Fin w1, Fin w2) = true
      <-> 0.000001 <= w0 /\ 0.000001 <= w1 /\ 0.000001 <= w2)
  /\ inside (barycentric ((50 + 0 + 100) / 3) ((0 + 100 + 100) / 3)
               tri_top tri_left tri_right) = true
  /\ inside (barycentric 50 0 tri_top tri_left tri_right) = false
  /\ inside (barycentric 0 100 tri_top tri_left tri_right) = false
  /\ inside (barycentric 100 100 tri_top tri_left tri_right) = false
  /\ (forall px py : Q,
        outside_bbox px py tri_top tri_left tri_right ->
        inside (barycentric px py tri_top tri_left tri_right) = false).
Proof.
  apply (inside_margin_spec tri_top tri_left tri_right).
  vm_compute. discriminate.
Defined.

(** C2, as written: the top vertex of the scenario triangle has weights
    (1, 0, 0), all at least [-1e-6], and [inside] rejects it; so [inside]
    is not the test "all three weights >= -tolerance". *)
Lemma inside_rejects_vertex :
  vec3_eq (barycentric 50 0 tri_top tri_left tri_right)
          (Fin 1, Fin 0, Fin 0)
  /\ inside (barycentric 50 0 tri_top tri_left tri_right) = false
  /\ ~ (forall w0 w1 w2 : Q,
          inside (Fin w0, Fin w1, Fin w2) = true
          <-> - 0.000001 <= w0 /\ - 0.000001 <= w1 /\ - 0.000001 <= w2).
Proof.
  split; [by_eval|]. split; [by_eval|].
  intros H. specialize (H 1 0 0).
  assert (T : inside (Fin 1, Fin 0, Fin 0) = true).
  { apply H. repeat split; discriminate. }
  vm_compute in T. discriminate.
Qed.

(* ================================================================== *)
(** ** The vertex locator *)

Lemma In_upto (n i : Z) : In i (upto n) <-> (0 <= i < n)%Z.
Proof.
  unfold upto. rewrite in_map_iff. split.
  - intros (k & <- & Hk). apply in_seq in Hk. lia.
  - intros H. exists (Z.to_nat i). split; [lia|]. apply in_seq. lia.
Qed.

Lemma flat_map_nil {X Y : Type} (f : X -> list Y) (l : list X) :
  (forall x, In x l -> f x = []) -> flat_map f l = [].
Proof.
  induction l as [|a l IH]; intros H; simpl; [reflexivity|].
  rewrite (H a) by (now left). apply IH. intros x Hx. apply H. now right.
Qed.

(** The collected points are the visible pixels of the image. *)
Lemma In_collect (data : list Z) (w h : Z) (p : point) :
  In p (collect data w h)
  <-> exists x y, (0 <= x < w)%Z /\ (0 <= y < h)%Z
                  /\ visible data w x y = true /\ p = pixel x y.
Proof.
  unfold collect. rewrite in_flat_map. split.
  - intros (y & Hy & Hp). apply in_flat_map in Hp.
    destruct Hp as (x & Hx & Hp).
    apply In_upto in Hx, Hy.
    destruct (visible data w x y) eqn:V; simpl in Hp; [|contradiction].
    destruct Hp as [<-|[]]. exists x, y. auto.
  - intros (x & y & Hx & Hy & V & ->).
    exists y. split; [now apply In_upto|].
    apply in_flat_map. exists x. split; [now apply In_upto|].
    rewrite V. now left.
Qed.

Lemma collect_nil (data : list Z) (w h : Z) :
  (forall x y, (0 <= x < w)%Z -> (0 <= y < h)%Z ->
               visible data w x y = false) ->
  collect data w h = [].
Proof.
  intros H. unfold collect. apply flat_map_nil. intros y Hy.
  apply flat_map_nil. intros x Hx. apply In_upto in Hx, Hy.
  now rewrite H.
Qed.

(** C7: when no pixel of the [w] by [h] image has alpha 30 or more,
    [detectVerticesByAlpha] returns the triangle top = (w/2, 0),
    left = (0, h-1), right = (w-1, h-1); the function is total, so nothing
    is raised. *)
Theorem detect_no_visible_pixel (data : list Z) (w h : Z)
  (Hnone : forall x y a, (0 <= x < w)%Z -> (0 <= y < h)%Z ->
                         alpha_at data w x y = Some a -> (a < 30)%Z) :
  detectVerticesByAlpha data w h
  = {| top := mkPoint (inject_Z w / 2) 0;
       left := mkPoint 0 (inject_Z (h - 1));
       right := mkPoint (inject_Z (w - 1)) (inject_Z (h - 1)) |}.
Proof.
  unfold detectVerticesByAlpha. rewrite collect_nil; [reflexivity|].
  intros x y Hx Hy. unfold visible.
  destruct (alpha_at data w x y) as [a|] eqn:E; [|reflexivity].
  specialize (Hnone x y a Hx Hy E). unfold TH. lia.
Qed.

Lemma detect_no_visible_pixel_witness :
  detectVerticesByAlpha img_transparent 2 2
  = {| top := mkPoint (inject_Z 2 / 2) 0;
       left := mkPoint 0 (inject_Z (2 - 1));
       right := mkPoint (inject_Z (2 - 1)) (inject_Z (2 - 1)) |}.
Proof.
  apply (detect_no_visible_pixel img_transparent 2 2).
  intros x y a Hx Hy.
  assert (Cx : x = 0%Z \/ x = 1%Z) by lia.
  assert (Cy : y = 0%Z \/ y = 1%Z) by lia.
  destruct Cx as [-> | ->], Cy as [-> | ->]; vm_compute;
    intros E; injection E as <-; reflexivity.
Defined.

Section Extremes.

Lemma min_of_spec (vs : list Q) : forall v0,
  In (min_of v0 vs) (v0 :: vs)
  /\ (forall v, In v (v0 :: vs) -> min_of v0 vs <= v).
Proof.
  unfold min_of.
  induction vs as [|a vs IH]; intros v0; simpl.
  - split; [now left|]. intros v [<-|[]]. apply Qle_refl.
  - destruct (IH (Qmin v0 a)) as [Hin Hle]. split.
    + destruct Hin as [E|Hin]; [|now right; right].
      rewrite <- E. unfold Qmin, GenericMinMax.gmin.
      destruct (v0 ?= a); auto.
    + intros v Hv.
      assert (Hm : fold_left Qmin vs (Qmin v0 a) <= Qmin v0 a)
        by (apply Hle; now left).
      destruct Hv as [<-|[<-|Hv]].
      * eapply Qle_trans; [exact Hm|apply Q.le_min_l].
      * eapply Qle_trans; [exact Hm|apply Q.le_min_r].
      * apply Hle. now right.
Qed.

Lemma max_of_spec (vs : list Q) : forall v0,
  In (max_of v0 vs) (v0 :: vs)
  /\ (forall v, In v (v0 :: vs) -> v <= max_of v0 vs).
Proof.
  unfold max_of.
  induction vs as [|a vs IH]; intros v0; simpl.
  - split; [now left|]. intros v [<-|[]]. apply Qle_refl.
  - destruct (IH (Qmax v0 a)) as [Hin Hle]. split.
    + destruct Hin as [E|Hin]; [|now right; right].
      rewrite <- E. unfold Qmax, GenericMinMax.gmax.
      destruct (v0 ?= a); auto.
    + intros v Hv.
      assert (Hm : Qmax v0 a <= fold_left Qmax vs (Qmax v0 a))
        by (apply Hle; now left).
      destruct Hv as [<-|[<-|Hv]].
      * eapply Qle_trans; [apply Q.le_max_l|exact Hm].
      * eapply Qle_trans; [apply Q.le_max_r|exact Hm].
      * apply Hle. now right.
Qed.

Lemma Qltb_lt (a b : Q) : Qltb a b = true <-> a < b.
Proof.
  unfold Qltb. rewrite Qlt_alt.
  destruct (a ?= b); split; intros; congruence.
Qed.

Lemma lower_is_better (p b : point) :
  Qltb (pt_y b) (pt_y p) = true <-> - pt_y p < - pt_y b.
Proof.
  rewrite Qltb_lt. split; intros; lra.
Qed.

Lemma In_in_band (k : key) (ex band : Q) (pts : list point) (p : point) :
  In p (in_band k ex band pts)
  <-> In p pts /\ Qabs (coord k p - ex) <= band.
Proof.
  unfold in_band. rewrite filter_In, Qle_bool_iff. tauto.
Qed.

(** A [reduce] that replaces the running best [b] by [p] exactly when [p]
    scores strictly less ends on an element of least score. *)
Lemma pick_least (f : point -> Q) (better : point -> point -> bool)
  (Hb : forall p b, better p b = true <-> f p < f b) (s : list point) :
  forall b0,
    (pick better s b0 = b0 \/ In (pick better s b0) s)
    /\ f (pick better s b0) <= f b0
    /\ (forall p, In p s -> f (pick better s b0) <= f p).
Proof.
  unfold pick.
  induction s as [|a s IH]; intros b0; simpl.
  - split; [now left|]. split; [apply Qle_refl|]. intros p [].
  - destruct (IH (if better a b0 then a else b0)) as (Hin & Hle & Hall).
    assert (Hstep : f (if better a b0 then a else b0) <= f b0
                    /\ f (if better a b0 then a else b0) <= f a).
    { destruct (better a b0) eqn:E.
      - apply Hb in E. split; [now apply Qlt_le_weak|apply Qle_refl].
      - split; [apply Qle_refl|].
        apply Qnot_lt_le. intros L. apply Hb in L. congruence. }
    destruct Hstep as [Hs1 Hs2].
    split; [|split].
    + destruct Hin as [E|Hin]; [|now right; right].
      rewrite E. destruct (better a b0); auto.
    + eapply Qle_trans; [exact Hle|exact Hs1].
    + intros p [<-|Hp]; [|now apply Hall].
      eapply Qle_trans; [exact Hle|exact Hs2].
Qed.

Variables (pts : list point) (w h : Z).
Hypothesis Hne : pts <> [].

(** The extremal value [ex] that [extreme] computes. *)
Lemma extreme_value (k : key) (min : bool) :
  exists ex,
    (if min then is_min_coord k pts ex else is_max_coord k pts ex)
    /\ extreme pts w h k min 3
       = match in_band k ex 3 pts with
         | [] => pick (fun p b => Qltb (Qabs (coord k p - ex))
                                       (Qabs (coord k b - ex)))
                   pts (hd (mkPoint 0 0) pts)
         | s0 :: _ =>
             match k with
             | KeyY =>
                 pick (fun p b =>
                         Qltb (Qabs (pt_x p - mean_x (in_band k ex 3 pts)))
                              (Qabs (pt_x b - mean_x (in_band k ex 3 pts))))
                   (in_band k ex 3 pts) s0
             | KeyX => pick (fun p b => Qltb (pt_y b) (pt_y p))
                         (in_band k ex 3 pts) s0
             end
         end.
Proof.
  destruct pts as [|p0 rest] eqn:Epts; [contradiction|].
  set (v0 := coord k p0). set (vs := List.map (coord k) rest).
  exists (if min then min_of v0 vs else max_of v0 vs). split.
  - destruct min.
    + destruct (min_of_spec vs v0) as [Hin Hle]. split.
      * change (v0 :: vs) with (List.map (coord k) (p0 :: rest)) in Hin.
        apply in_map_iff in Hin. destruct Hin as (p & E & Hp). eauto.
      * intros p Hp. apply Hle.
        change (v0 :: vs) with (List.map (coord k) (p0 :: rest)).
        now apply in_map.
    + destruct (max_of_spec vs v0) as [Hin Hle]. split.
      * change (v0 :: vs) with (List.map (coord k) (p0 :: rest)) in Hin.
        apply in_map_iff in Hin. destruct Hin as (p & E & Hp). eauto.
      * intros p Hp. apply Hle.
        change (v0 :: vs) with (List.map (coord k) (p0 :: rest)).
        now apply in_map.
  - unfold extreme.
    change (List.map (coord k) (p0 :: rest)) with (v0 :: vs).
    cbv beta iota zeta. unfold hd.
    destruct (in_band k _ 3 (p0 :: rest)); reflexivity.
Qed.

(** The band around an attained extremal value is not empty. *)
Lemma band_nonempty (k : key) (ex : Q) :
  (exists p, In p pts /\ coord k p = ex) -> in_band k ex 3 pts <> [].
Proof.
  intros (p & Hp & E) Hnil.
  assert (Hin : In p (in_band k ex 3 pts)).
  { apply In_in_band. split; [exact Hp|].
    rewrite E. setoid_replace (ex - ex)%Q with 0%Q by ring. discriminate. }
  rewrite Hnil in Hin. contradiction.
Qed.

(** The top vertex: in the band of the least [y], nearest in [x] to the
    band's mean. *)
Lemma extreme_top :
  exists ymin,
    is_min_coord KeyY pts ymin
    /\ In (extreme pts w h KeyY true 3) (in_band KeyY ymin 3 pts)
    /\ (forall p, In p (in_band KeyY ymin 3 pts) ->
          Qabs (pt_x (extreme pts w h KeyY true 3)
                - mean_x (in_band KeyY ymin 3 pts))
          <= Qabs (pt_x p - mean_x (in_band KeyY ymin 3 pts))).
Proof.
  destruct (extreme_value KeyY true) as (ex & Hmin & E).
  exists ex. split; [exact Hmin|].
  pose proof (band_nonempty KeyY ex (proj1 Hmin)) as Hb.
  rewrite E. destruct (in_band KeyY ex 3 pts) as [|s0 sel] eqn:Es;
    [contradiction|].
  set (cx := mean_x (s0 :: sel)).
  destruct (pick_least (fun p => Qabs (pt_x p - cx))
              (fun p b => Qltb (Qabs (pt_x p - cx)) (Qabs (pt_x b - cx)))
              (fun p b => Qltb_lt _ _) (s0 :: sel) s0)
    as (Hin & _ & Hall).
  split; [|exact Hall].
  destruct Hin as [-> | Hin]; [now left | exact Hin].
Qed.

(** The left and right vertices: in the band of the least (greatest) [x],
    of greatest [y]. *)
Lemma extreme_side (min : bool) :
  exists ex,
    (if min then is_min_coord KeyX pts ex else is_max_coord KeyX pts ex)
    /\ In (extreme pts w h KeyX min 3) (in_band KeyX ex 3 pts)
    /\ (forall p, In p (in_band KeyX ex 3 pts) ->
          pt_y p <= pt_y (extreme pts w h KeyX min 3)).
Proof.
  destruct (extreme_value KeyX min) as (ex & Hex & E).
  exists ex. split; [exact Hex|].
  assert (Hatt : exists p, In p pts /\ coord KeyX p = ex)
    by (destruct min; exact (proj1 Hex)).
  pose proof (band_nonempty KeyX ex Hatt) as Hb.
  rewrite E. destruct (in_band KeyX ex 3 pts) as [|s0 sel] eqn:Es;
    [contradiction|].
  destruct (pick_least (fun p => - pt_y p)
              (fun p b => Qltb (pt_y b) (pt_y p))
              lower_is_better (s0 :: sel) s0)
    as (Hin & _ & Hall).
  split.
  - destruct Hin as [-> | Hin]; [now left | exact Hin].
  - intros p Hp. specialize (Hall p Hp). lra.
Qed.

End Extremes.



(** The image [img_glyph], evaluated. *)
Example detect_glyph :
  detectVerticesByAlpha img_glyph 4 2
  = {| top := mkPoint 1 0; left := mkPoint 0 1; right := mkPoint 0 1 |}.
Proof. vm_compute. reflexivity. Qed.

(* ================================================================== *)
(** ** Rebalancing, on finite fields *)

Section RebalanceFinite.

(** The divisor of [norm3p] is positive. *)
Lemma norm_divisor_pos (x : Q) : 0 < Qmax x 0.000000000001.
Proof.
  eapply Qlt_le_trans; [|apply Q.le_max_r]. reflexivity.
Qed.

Lemma norm3p_Fin (r g b : Q) :
  norm3p (Fin r) (Fin g) (Fin b)
  = (Fin (r / Qmax (r + g + b) 0.000000000001 * 100),
     Fin (g / Qmax (r + g + b) 0.000000000001 * 100),
     Fin (b / Qmax (r + g + b) 0.000000000001 * 100)).
Proof.
  unfold norm3p. autorewrite with fin. rewrite Math_max_Fin.
  pose proof (norm_divisor_pos (r + g + b)) as Hs.
  rewrite !ndiv_fin by (intros E; rewrite E in Hs; discriminate).
  reflexivity.
Qed.

Lemma scale_k_Fin (rem nv : Q) :
  ~ rem == 0 -> scale_k (Fin rem) (Fin nv) = Fin ((100 + - nv) / rem).
Proof.
  intros H. unfold scale_k. rewrite (proj2 (truthy_fin rem) H).
  autorewrite with fin. now rewrite ndiv_fin.
Qed.

Lemma scale_k_Fin_zero (rem nv : Q) :
  rem == 0 -> scale_k (Fin rem) (Fin nv) = Fin 0.5.
Proof.
  intros H. unfold scale_k. now rewrite (proj2 (truthy_fin_false rem) H).
Qed.

(** The normalised remainder vanishes exactly when the remainder does. *)
Lemma norm_rem_zero (x y s : Q) :
  0 < s -> (x / s * 100 + y / s * 100 == 0 <-> x + y == 0).
Proof.
  intros Hs. assert (Hs' : ~ s == 0) by lra.
  split; intros E.
  - setoid_replace (x + y)%Q with ((x / s * 100 + y / s * 100) * s / 100)%Q
      by (field; exact Hs').
    rewrite E. field.
  - setoid_replace (x / s * 100 + y / s * 100)%Q with ((x + y) / s * 100)%Q
      by (field; exact Hs').
    rewrite E. field. exact Hs'.
Qed.

Variables (st : state) (r0 g0 b0 : Q).
Hypothesis Hr : rEl st = Fin r0.
Hypothesis Hg : gEl st = Fin g0.
Hypothesis Hb : bEl st = Fin b0.

Variables (newVal : num) (nv : Q).
Hypothesis Hnv : clamp01p newVal = Fin nv.

(** Opens [rebalance_vals] on the finite fields, up to the computation of
    the scale. *)
Ltac open_rebalance :=
  unfold rebalance_vals;
  rewrite Hr, Hg, Hb, !or_else_Fin, norm3p_Fin, Hnv;
  cbv beta iota zeta; autorewrite with fin.

(** When the two other fields do not sum to 0, they are scaled by
    [(100 - nv) / rem] and the focus is set to [nv]; the total is then 100
    and the fix-up is skipped. *)
Lemma rebalance_vals_scaled (focus : channel) :
  ~ others_sum focus r0 g0 b0 == 0 ->
  vec3_eq (rebalance_vals focus newVal st)
    (set_chan (Fin (r0 * (100 - nv) / others_sum focus r0 g0 b0),
               Fin (g0 * (100 - nv) / others_sum focus r0 g0 b0),
               Fin (b0 * (100 - nv) / others_sum focus r0 g0 b0))
       focus (Fin nv)).
Proof.
  intros Hrem.
  pose proof (norm_divisor_pos (qor0 r0 + qor0 g0 + qor0 b0)) as Hs.
  assert (Hs' : ~ Qmax (qor0 r0 + qor0 g0 + qor0 b0) 0.000000000001 == 0)
    by lra.
  destruct focus; unfold others_sum in *; open_rebalance;
    match goal with
    | |- context [scale_k (Fin (?x / ?s * 100 + ?y / ?s * 100)%Q) _] =>
      assert (Hrem' : ~ (x / s * 100 + y / s * 100 == 0)%Q)
        by (rewrite (norm_rem_zero x y s Hs), !qor0_eq; exact Hrem);
      rewrite (scale_k_Fin _ nv Hrem')
    end;
    autorewrite with fin;
    match goal with |- context [Fin ?x >? Fin ?y] =>
      rewrite (proj2 (ngt_fin_false x y));
      [ simpl; split_all; try reflexivity
      | assert (Z : x == 0);
        [ match goal with |- Qabs ?e == 0 =>
            setoid_replace e with 0%Q; [reflexivity|]
          end
        | rewrite Z; discriminate ] ]
    end;
    rewrite ?qor0_eq; rewrite ?qor0_eq in Hs'; field; repeat split;
    first [ exact Hs' | exact Hrem | intros E; apply Hrem; lra ].
Qed.

(** When the two other fields are both 0 and the clamped value is not,
    the others stay 0 (the scale [0.5] and the fix-up factor [100/tot]
    multiply zeros) and the focus is set to [nv]: the total is [nv]. *)
Lemma rebalance_vals_others_zero (focus : channel) :
  others_zero focus r0 g0 b0 -> ~ nv == 0 ->
  vec3_eq (rebalance_vals focus newVal st)
          (set_chan (Fin 0, Fin 0, Fin 0) focus (Fin nv)).
Proof.
  intros Hz Hnz.
  pose proof (norm_divisor_pos (qor0 r0 + qor0 g0 + qor0 b0)) as Hs.
  assert (Hs' : ~ Qmax (qor0 r0 + qor0 g0 + qor0 b0) 0.000000000001 == 0)
    by lra.
  destruct focus; unfold others_zero in Hz; destruct Hz as [Hz1 Hz2];
    open_rebalance;
    match goal with
    | |- context [scale_k (Fin (?x / ?s * 100 + ?y / ?s * 100)%Q) _] =>
      assert (Hx : (x / s * 100 == 0)%Q)
        by (rewrite qor0_eq, Hz1; unfold Qdiv; ring);
      assert (Hy : (y / s * 100 == 0)%Q)
        by (rewrite qor0_eq, Hz2; unfold Qdiv; ring);
      rewrite (scale_k_Fin_zero (x / s * 100 + y / s * 100) nv)
        by (rewrite Hx, Hy; reflexivity)
    end;
    autorewrite with fin;
    match goal with |- context [Fin ?x >? Fin ?y] =>
      destruct (Fin x >? Fin y)
    end;
    cbn [negb channel_eqb];
    try (rewrite ndiv_fin
           by (rewrite Hx, Hy; intros E; apply Hnz; rewrite <- E; ring));
    autorewrite with fin; simpl; split_all; try reflexivity;
    rewrite ?Hx, ?Hy; ring.
Qed.

(** When the two other fields are both 0 and the clamped value is 0 too,
    the total is 0, the factor [100/tot] is [Infinity] and the two other
    channels become [0 * Infinity], that is [NaN]. *)
Lemma rebalance_vals_all_zero (focus : channel) :
  others_zero focus r0 g0 b0 -> nv == 0 ->
  rebalance_vals focus newVal st
  = set_chan (NaN, NaN, NaN) focus (Fin nv).
Proof.
  intros Hz Hnz.
  pose proof (norm_divisor_pos (qor0 r0 + qor0 g0 + qor0 b0)) as Hs.
  destruct focus; unfold others_zero in Hz; destruct Hz as [Hz1 Hz2];
    open_rebalance;
    match goal with
    | |- context [scale_k (Fin (?x / ?s * 100 + ?y / ?s * 100)%Q) _] =>
      assert (Hx : (x / s * 100 == 0)%Q)
        by (rewrite qor0_eq, Hz1; unfold Qdiv; ring);
      assert (Hy : (y / s * 100 == 0)%Q)
        by (rewrite qor0_eq, Hz2; unfold Qdiv; ring);
      rewrite (scale_k_Fin_zero (x / s * 100 + y / s * 100) nv)
        by (rewrite Hx, Hy; reflexivity)
    end;
    autorewrite with fin;
    match goal with |- context [Fin ?x >? Fin ?y] =>
      rewrite (proj2 (ngt_fin x y))
        by (rewrite Hx, Hy, Hnz; reflexivity)
    end;
    cbn [negb channel_eqb];
    match goal with |- context [Fin 100 / Fin ?t] =>
      assert (Ht : Fin 100 / Fin t = PInf)
        by (unfold ndiv;
            rewrite (proj2 (Qeq_bool_iff t 0))
              by (rewrite Hx, Hy, Hnz; reflexivity);
            reflexivity);
      rewrite Ht
    end;
    unfold nmul, inf_of_sign, sgn;
    repeat match goal with |- context [?q ?= 0] =>
      rewrite (proj1 (Qeq_alt q 0)) by (rewrite ?Hx, ?Hy; reflexivity)
    end;
    reflexivity.
Qed.

End RebalanceFinite.

(* ================================================================== *)
(** ** Where the sum-to-100 invariant holds *)

Lemma clamp01p_range (x : num) (nv : Q) :
  clamp01p x = Fin nv -> 0 <= nv /\ nv <= 100.
Proof.
  destruct x as [v| | |].
  - rewrite clamp01p_Fin. intros E. injection E as <-.
    apply clamp_0_100_range.
  - vm_compute. intros E. injection E as <-. split; discriminate.
  - vm_compute. intros E. injection E as <-. split; discriminate.
  - vm_compute. discriminate.
Qed.

Lemma share_range (x os c : Q) :
  0 <= x -> x <= os -> 0 < os -> 0 <= c -> c <= 100 ->
  0 <= x * c / os /\ x * c / os <= 100.
Proof.
  intros Hx Hxo Ho Hc Hc'. split.
  - apply Qle_shift_div_l; [exact Ho|]. nra.
  - apply Qle_shift_div_r; [exact Ho|]. nra.
Qed.

(** From finite non-negative fields whose two non-focus values are not
    both 0, an edit publishes three values of [0,100] that sum to exactly
    100. *)
Lemma rebalance_vals_valid (focus : channel) (newVal : num) (st : state)
  (r0 g0 b0 nv : Q) :
  rEl st = Fin r0 -> gEl st = Fin g0 -> bEl st = Fin b0 ->
  clamp01p newVal = Fin nv ->
  0 <= r0 -> 0 <= g0 -> 0 <= b0 ->
  ~ others_sum focus r0 g0 b0 == 0 ->
  exists r g b : Q,
    vec3_eq (rebalance_vals focus newVal st) (Fin r, Fin g, Fin b)
    /\ (0 <= r /\ r <= 100) /\ (0 <= g /\ g <= 100) /\ (0 <= b /\ b <= 100)
    /\ r + g + b == 100.
Proof.
  intros Hr Hg Hb Hnv Pr Pg Pb Hrem.
  pose proof (rebalance_vals_scaled st r0 g0 b0 Hr Hg Hb newVal nv Hnv
                focus Hrem) as E.
  destruct (clamp01p_range _ _ Hnv) as [N0 N1].
  assert (C0 : 0 <= 100 - nv) by lra.
  assert (C1 : 100 - nv <= 100) by lra.
  destruct focus; unfold others_sum in *; cbn [set_chan] in E;
    (eexists _, _, _; split; [exact E|]);
    match goal with H : ~ ?x + ?y == 0 |- _ =>
      assert (Ho : 0 < x + y) by lra;
      pose proof (share_range x (x + y) (100 - nv)) as Sx;
      pose proof (share_range y (x + y) (100 - nv)) as Sy
    end;
    split_all; try lra; try (apply Sx; lra); try (apply Sy; lra);
    field; exact Hrem.
Qed.

(* ================================================================== *)
(** ** Repeating a field edit *)

Lemma num_eq_Fin_inv (a : num) (q : Q) :
  a =n= Fin q -> exists q', a = Fin q' /\ q' == q.
Proof.
  destruct a; simpl; try contradiction. intros H. eauto.
Qed.

Lemma vec3_eq_trans (u v t : vec3) :
  vec3_eq u v -> vec3_eq v t -> vec3_eq u t.
Proof.
  destruct u as [[a b] c], v as [[a' b'] c'], t as [[a'' b''] c''].
  unfold vec3_eq. intros (H1 & H2 & H3) (K1 & K2 & K3).
  split_all; eapply num_eq_trans; eassumption.
Qed.

Lemma vec3_eq_sym (u v : vec3) : vec3_eq u v -> vec3_eq v u.
Proof.
  destruct u as [[a b] c], v as [[a' b'] c'].
  unfold vec3_eq. intros (H1 & H2 & H3).
  split_all; now apply num_eq_sym.
Qed.

(** The fractions [setPerc] stores, for equal percentages. *)
Lemma percent_fraction_compat (a : num) (q : Q) :
  a =n= Fin q -> a / Fin 100 =n= Fin q / Fin 100.
Proof.
  intros H. apply num_eq_Fin_inv in H. destruct H as (q' & -> & E).
  rewrite !ndiv_fin by discriminate. simpl. now rewrite E.
Qed.

Lemma getRGB_setPerc (r g b : num) (st : state) :
  getRGB (setPerc r g b st) = (r / Fin 100, g / Fin 100, b / Fin 100).
Proof. reflexivity. Qed.

(** A state whose fields hold a valid vector exactly, with the focus field
    at the clamped value, is left as it is by the edit. *)
Lemma rebalance_vals_fixed (focus : channel) (newVal : num) (st : state)
  (fr fg fb nv r1 g1 b1 : Q) :
  rEl st = Fin fr -> gEl st = Fin fg -> bEl st = Fin fb ->
  fr == r1 -> fg == g1 -> fb == b1 ->
  clamp01p newVal = Fin nv ->
  Fin nv =n= get_chan (Fin r1, Fin g1, Fin b1) focus ->
  0 <= r1 /\ 0 <= g1 /\ 0 <= b1 ->
  r1 + g1 + b1 == 100 ->
  vec3_eq (rebalance_vals focus newVal st) (Fin r1, Fin g1, Fin b1).
Proof.
  intros Hr Hg Hb Er Eg Eb Hnv Efocus (Pr & Pg & Pb) Hsum.
  destruct (Qeq_dec (others_sum focus fr fg fb) 0) as [Hz|Hnz].
  - assert (Hoz : others_zero focus fr fg fb).
    { destruct focus; unfold others_sum in Hz; unfold others_zero;
        split; lra. }
    assert (Hnv0 : ~ nv == 0).
    { destruct focus; unfold others_sum in Hz; simpl in Efocus; lra. }
    eapply vec3_eq_trans;
      [exact (rebalance_vals_others_zero st fr fg fb Hr Hg Hb newVal nv
                Hnv focus Hoz Hnv0)|].
    destruct focus; unfold others_zero in Hoz; simpl in Efocus |- *;
      split_all; lra.
  - eapply vec3_eq_trans;
      [exact (rebalance_vals_scaled st fr fg fb Hr Hg Hb newVal nv
                Hnv focus Hnz)|].
    destruct focus; unfold others_sum in *; simpl in Efocus |- *;
      split_all; try assumption;
      match goal with |- ?x * _ / ?d == _ =>
        setoid_replace (100 - nv)%Q with d by lra; field_simplify_eq;
        [lra | exact Hnz]
      end.
Qed.

Lemma get_chan_compat (u v : vec3) (c : channel) :
  vec3_eq u v -> get_chan u c =n= get_chan v c.
Proof.
  destruct u as [[a b] d], v as [[a' b'] d']. unfold vec3_eq.
  intros (H1 & H2 & H3). destruct c; assumption.
Qed.

Lemma fractions_compat (u : vec3) (r g b : Q) (st st' : state) :
  vec3_eq u (Fin r, Fin g, Fin b) ->
  vec3_eq (getRGB (let '(x, y, z) := u in setPerc x y z st))
          (getRGB (setPerc (Fin r) (Fin g) (Fin b) st')).
Proof.
  destruct u as [[x y] z]. unfold vec3_eq. intros (H1 & H2 & H3).
  rewrite !getRGB_setPerc. split_all; now apply percent_fraction_compat.
Qed.

(** C9 (as amended): if the vector published by [rebalance(c, v)] is valid
    (finite, no channel negative, sum exactly 100) and the three fields,
    which hold it to two decimals, hold it exactly, then a second
    [rebalance(c, v)] publishes the same vector, and [rgb] is unchanged. *)
Theorem rebalance_twice_exact (focus : channel) (newVal : num) (st0 : state)
  (r1 g1 b1 : Q)
  (Hfirst : vec3_eq (rebalance_vals focus newVal st0)
                    (Fin r1, Fin g1, Fin b1))
  (Hnonneg : 0 <= r1 /\ 0 <= g1 /\ 0 <= b1)
  (Hsum : r1 + g1 + b1 == 100)
  (Hexact : vec3_eq (rEl (rebalance focus newVal st0),
                     gEl (rebalance focus newVal st0),
                     bEl (rebalance focus newVal st0))
                    (Fin r1, Fin g1, Fin b1)) :
  vec3_eq (rebalance_vals focus newVal (rebalance focus newVal st0))
          (rebalance_vals focus newVal st0)
  /\ vec3_eq (getRGB (rebalance focus newVal (rebalance focus newVal st0)))
             (getRGB (rebalance focus newVal st0)).
Proof.
  set (st1 := rebalance focus newVal st0) in *.
  destruct Hexact as (Fr & Fg & Fb).
  apply num_eq_Fin_inv in Fr, Fg, Fb.
  destruct Fr as (fr & Hr & Er), Fg as (fg & Hg & Eg), Fb as (fb & Hb & Eb).
  pose proof (get_chan_compat _ _ focus Hfirst) as Hfoc.
  rewrite rebalance_vals_focus in Hfoc.
  destruct (num_eq_Fin_inv (clamp01p newVal)
              (match focus with R => r1 | G => g1 | B => b1 end))
    as (nv & Hnv & Env).
  { destruct focus; exact Hfoc. }
  assert (Hfix : vec3_eq (rebalance_vals focus newVal st1)
                         (Fin r1, Fin g1, Fin b1)).
  { apply (rebalance_vals_fixed focus newVal st1 fr fg fb nv r1 g1 b1);
      auto.
    destruct focus; simpl; exact Env. }
  split.
  - eapply vec3_eq_trans; [exact Hfix|]. now apply vec3_eq_sym.
  - eapply vec3_eq_trans.
    + unfold rebalance at 1. apply (fractions_compat _ r1 g1 b1 st1 st0).
      exact Hfix.
    + apply vec3_eq_sym. unfold st1, rebalance.
      apply (fractions_compat _ r1 g1 b1 st0 st0). exact Hfirst.
Qed.

(** From the initial state, B edited to 60 gives 20 / 20 / 60, which the
    fields hold exactly. *)
Lemma rebalance_twice_exact_witness :
  vec3_eq (rebalance_vals B (Fin 60) (rebalance B (Fin 60) initial_state))
          (rebalance_vals B (Fin 60) initial_state)
  /\ vec3_eq (getRGB (rebalance B (Fin 60)
                        (rebalance B (Fin 60) initial_state)))
             (getRGB (rebalance B (Fin 60) initial_state)).
Proof.
  apply (rebalance_twice_exact B (Fin 60) initial_state 20 20 60).
  - by_eval.
  - vm_compute. intuition discriminate.
  - vm_compute. reflexivity.
  - by_eval.
Defined.

(** C9, as written: the fields show 10.00 / 45.00 / 45.00 (the user typed
    10 into R of the initial state).  A first [rebalance('G', 20)] stores
    the fractions 8/55, 1/5, 36/55 and shows 14.55 / 20.00 / 65.45; the
    second reads the rounded fields back and stores 0.1455, 0.2, 0.6545. *)
Lemma rebalance_twice_differs :
  vec3_eq (getRGB (rebalance G (Fin 20) st_R10))
          (Fin (8 # 55), Fin (1 # 5), Fin (36 # 55))
  /\ vec3_eq (getRGB (rebalance G (Fin 20) (rebalance G (Fin 20) st_R10)))
             (Fin 0.1455, Fin 0.2, Fin 0.6545)
  /\ ~ vec3_eq (getRGB (rebalance G (Fin 20) (rebalance G (Fin 20) st_R10)))
               (getRGB (rebalance G (Fin 20) st_R10)).
Proof.
  split_all; by_eval.
Qed.

(* ================================================================== *)
(** ** The stored triple and its snapshot *)

(** Weights of at least [1e-6] are relabelled and divided by their sum:
    the result is finite, non-negative and sums to 1, for any map. *)
Lemma baryToRGB_fractions (w0 w1 w2 : Q) (map : chanmap) :
  0.000001 <= w0 -> 0.000001 <= w1 -> 0.000001 <= w2 ->
  exists r g b : Q,
    baryToRGB (Fin w0, Fin w1, Fin w2) map = (Fin r, Fin g, Fin b)
    /\ 0 <= r /\ 0 <= g /\ 0 <= b /\ r + g + b == 1.
Proof.
  intros H0 H1 H2. destruct map as [[m0 m1] m2].
  assert (Hdiv : forall o s : Q, 0 <= o -> 0 < s -> 0 <= o / s).
  { intros o s Ho Hs. apply Qle_shift_div_l; [exact Hs|]. lra. }
  destruct m0, m1, m2; unfold baryToRGB; cbn [set_chan];
    autorewrite with fin; rewrite Math_max_Fin;
    match goal with |- context [Qmax ?x ?e] =>
      assert (Hx : e <= x) by lra;
      assert (Hs : 0 < Qmax x e) by apply norm_divisor_pos;
      assert (Hs' : ~ Qmax x e == 0) by lra;
      pose proof (Q.max_l x e Hx) as Hm
    end;
    rewrite !ndiv_fin by exact Hs';
    (eexists _, _, _; split; [reflexivity|];
     split_all; try (apply Hdiv; [lra | exact Hs]);
     rewrite Hm; field; lra).
Qed.

(** An accepted pointer position stores finite non-negative fractions of
    sum 1. *)
Lemma handlePoint_fractions (cfg : config) (mx my : Q) (st : state) :
  snd (handlePoint cfg mx my st) = true ->
  exists r g b : Q,
    getRGB (fst (handlePoint cfg mx my st)) = (Fin r, Fin g, Fin b)
    /\ 0 <= r /\ 0 <= g /\ 0 <= b /\ r + g + b == 1.
Proof.
  unfold handlePoint.
  destruct (inside (barycentric mx my (Vtop cfg) (Vleft cfg) (Vright cfg)))
    eqn:Hin; cbn [negb]; [|discriminate]. intros _.
  destruct (Qeq_dec (signedArea (Vtop cfg) (Vleft cfg) (Vright cfg)) 0)
    as [Hd|Hd].
  { rewrite inside_degenerate in Hin by exact Hd. discriminate. }
  rewrite (barycentric_fin mx my _ _ _ Hd) in Hin |- *.
  apply inside_fin in Hin. destruct Hin as (H0 & H1 & H2).
  destruct (baryToRGB_fractions _ _ _ (vertexToChannel cfg) H0 H1 H2)
    as (r & g & b & E & Pr & Pg & Pb & S).
  rewrite E. cbn [fst]. rewrite getRGB_setPerc. autorewrite with fin.
  rewrite !ndiv_fin by discriminate.
  eexists _, _, _. split; [reflexivity|].
  split_all; try (apply Qle_shift_div_l; [reflexivity|]; lra).
  rewrite <- S. field.
Qed.

(** An accepted pointer position is drawn where it was taken: with a
    channel map that is a bijection, [drawFromRGB] after [handlePoint]
    computes the pointer position itself. *)
Lemma click_then_draw (cfg : config) (mx my : Q) (st : state) :
  is_bijection (vertexToChannel cfg) = true ->
  snd (handlePoint cfg mx my st) = true ->
  fst (drawFromRGB cfg (fst (handlePoint cfg mx my st))) =n= Fin mx
  /\ snd (drawFromRGB cfg (fst (handlePoint cfg mx my st))) =n= Fin my.
Proof.
  destruct cfg as [T L Rt [[m0 m1] m2]]. unfold handlePoint, drawFromRGB.
  cbn [Vtop Vleft Vright vertexToChannel].
  intros Hbij.
  destruct (inside (barycentric mx my T L Rt)) eqn:Hin; cbn [negb];
    [|discriminate]. intros _.
  destruct (Qeq_dec (signedArea T L Rt) 0) as [Hd|Hd].
  { rewrite inside_degenerate in Hin by exact Hd. discriminate. }
  destruct (weights_recombine mx my T L Rt Hd) as [Ex Ey].
  rewrite (barycentric_fin mx my _ _ _ Hd) in Hin |- *.
  apply inside_fin in Hin. destruct Hin as (H0 & H1 & H2).
  set (w0 := (signedArea (mkPoint mx my) L Rt / signedArea T L Rt)%Q) in *.
  set (w1 := (signedArea (mkPoint mx my) Rt T / signedArea T L Rt)%Q) in *.
  destruct m0, m1, m2; try discriminate Hbij; clear Hbij;
    unfold baryToRGB; cbn [set_chan];
    autorewrite with fin; rewrite Math_max_Fin;
    match goal with |- context [Qmax ?x ?e] =>
      assert (Hx : x == 1) by ring;
      assert (Hs' : ~ Qmax x e == 0)
        by (pose proof (norm_divisor_pos x); lra);
      assert (Hm : Qmax x e == 1) by (rewrite Hx; reflexivity)
    end;
    rewrite !ndiv_fin by exact Hs';
    cbn [fst]; unfold setPerc; cbn [rgb rgbToBary get_chan combine fst snd];
    autorewrite with fin; rewrite !ndiv_fin by discriminate;
    autorewrite with fin; cbn [fst snd num_eq];
    (split; [etransitivity; [|exact Ex] | etransitivity; [|exact Ey]]);
    rewrite Hm; field.
Qed.

(** C5 (as amended): [getRGB] returns the stored triple [rgb], one value
    per channel, which holds the published percentages divided by 100
    (fractions of 1, not percentages).  In the initial state each is
    0.333333 (sum 0.999999); after an accepted pointer position they are
    finite, non-negative and sum to exactly 1; after a field edit they are
    the triple handed to [setPerc], over 100. *)
Theorem getRGB_fractions (cfg : config) (mx my : Q) (st : state)
  (Haccepted : snd (handlePoint cfg mx my st) = true) :
  getRGB st = rgb st
  /\ (forall r g b : num,
        getRGB (setPerc r g b st) = (r / Fin 100, g / Fin 100, b / Fin 100))
  /\ vec3_eq (getRGB initial_state)
             (Fin 0.333333, Fin 0.333333, Fin 0.333333)
  /\ vsum (getRGB initial_state) =n= Fin 0.999999
  /\ (exists r g b : Q,
        getRGB (fst (handlePoint cfg mx my st)) = (Fin r, Fin g, Fin b)
        /\ 0 <= r /\ 0 <= g /\ 0 <= b /\ r + g + b == 1)
  /\ (forall focus newVal,
        getRGB (rebalance focus newVal st)
        = (let '(r, g, b) := rebalance_vals focus newVal st in
           (r / Fin 100, g / Fin 100, b / Fin 100))).
Proof.
  split; [unfold getRGB; now destruct (rgb st) as [[r g] b]|].
  split; [intros; apply getRGB_setPerc|].
  split; [by_eval|]. split; [by_eval|].
  split; [now apply handlePoint_fractions|].
  intros focus newVal. unfold rebalance.
  destruct (rebalance_vals focus newVal st) as [[r g] b].
  apply getRGB_setPerc.
Qed.

(** A click at (40, 60) in the scenario triangle, from the initial state. *)
Lemma getRGB_fractions_witness :
  getRGB initial_state = rgb initial_state
  /\ (forall r g b : num,
        getRGB (setPerc r g b initial_state)
        = (r / Fin 100, g / Fin 100, b / Fin 100))
  /\ vec3_eq (getRGB initial_state)
             (Fin 0.333333, Fin 0.333333, Fin 0.333333)
  /\ vsum (getRGB initial_state) =n= Fin 0.999999
  /\ (exists r g b : Q,
        getRGB (fst (handlePoint cfg_scenario 40 60 initial_state))
        = (Fin r, Fin g, Fin b)
        /\ 0 <= r /\ 0 <= g /\ 0 <= b /\ r + g + b == 1)
  /\ (forall focus newVal,
        getRGB (rebalance focus newVal initial_state)
        = (let '(r, g, b) := rebalance_vals focus newVal initial_state in
           (r / Fin 100, g / Fin 100, b / Fin 100))).
Proof.
  apply (getRGB_fractions cfg_scenario 40 60 initial_state).
  vm_compute. reflexivity.
Defined.

(** C5, as written: in the initial state the three values of [getRGB] sum
    to 0.999999, which is not within 0.001 of 100. *)
Lemma getRGB_initial_sum_not_100 :
  vsum (getRGB initial_state) =n= Fin 0.999999
  /\ (Math_abs (vsum (getRGB initial_state) - Fin 100) <=? Fin 0.001) = false.
Proof.
  split; by_eval.
Qed.

(* ================================================================== *)
(** ** Further properties of the geometry kernel *)

(** X1: the signed area is unchanged by a cyclic rotation of the
    vertices, changes sign when two vertices are swapped, and is unchanged
    when the three vertices are moved by the offset of the drawing
    rectangle. *)
Theorem signedArea_symmetries (A B C : point) (rc : rect) :
  signedArea B C A == signedArea A B C
  /\ signedArea A C B == - signedArea A B C
  /\ signedArea (on_canvas rc A) (on_canvas rc B) (on_canvas rc C)
     == signedArea A B C.
Proof.
  unfold signedArea, area, on_canvas. cbn [pt_x pt_y].
  split_all; ring.
Qed.

(** X2: for a triangle of non-zero signed area, [barycentric] gives the
    weights (1,0,0), (0,1,0), (0,0,1) at the three vertices and
    (1/3,1/3,1/3) at the centroid. *)
Theorem barycentric_vertices (A B C : point)
  (Hnd : ~ signedArea A B C == 0) :
  vec3_eq (barycentric (pt_x A) (pt_y A) A B C) (Fin 1, Fin 0, Fin 0)
  /\ vec3_eq (barycentric (pt_x B) (pt_y B) A B C) (Fin 0, Fin 1, Fin 0)
  /\ vec3_eq (barycentric (pt_x C) (pt_y C) A B C) (Fin 0, Fin 0, Fin 1)
  /\ vec3_eq (barycentric ((pt_x A + pt_x B + pt_x C) / 3)
                          ((pt_y A + pt_y B + pt_y C) / 3) A B C)
             (Fin (1 # 3), Fin (1 # 3), Fin (1 # 3)).
Proof.
  split_all; rewrite (barycentric_fin _ _ A B C Hnd);
    unfold vec3_eq, num_eq; unfold signedArea, area in *;
    cbn [pt_x pt_y]; split_all; field; exact Hnd.
Qed.

Lemma barycentric_vertices_witness :
  vec3_eq (barycentric 50 0 tri_top tri_left tri_right)
          (Fin 1, Fin 0, Fin 0)
  /\ vec3_eq (barycentric 0 100 tri_top tri_left tri_right)
             (Fin 0, Fin 1, Fin 0)
  /\ vec3_eq (barycentric 100 100 tri_top tri_left tri_right)
             (Fin 0, Fin 0, Fin 1)
  /\ vec3_eq (barycentric ((50 + 0 + 100) / 3) ((0 + 100 + 100) / 3)
                          tri_top tri_left tri_right)
             (Fin (1 # 3), Fin (1 # 3), Fin (1 # 3)).
Proof.
  apply (barycentric_vertices tri_top tri_left tri_right).
  vm_compute. discriminate.
Defined.

(** X3: when the three screen vertices are collinear (signed area 0),
    [handlePoint] rejects every pointer position: it returns false and
    leaves the state as it was. *)
Theorem handlePoint_degenerate (cfg : config) (mx my : Q) (st : state)
  (Hflat : signedArea (Vtop cfg) (Vleft cfg) (Vright cfg) == 0) :
  handlePoint cfg mx my st = (st, false).
Proof.
  unfold handlePoint.
  now rewrite (inside_degenerate mx my _ _ _ Hflat).
Qed.

Lemma handlePoint_degenerate_witness :
  handlePoint cfg_flat 5 5 initial_state = (initial_state, false).
Proof.
  apply (handlePoint_degenerate cfg_flat 5 5 initial_state).
  vm_compute. reflexivity.
Defined.

(** X4: with a channel map that is a bijection, the state stored by an
    accepted [handlePoint(mx, my)] is drawn by [drawFromRGB] at the pointer
    position [(mx, my)] itself, and the call returns true. *)
Theorem accepted_click_is_drawn (cfg : config) (mx my : Q) (st : state)
  (Hbij : is_bijection (vertexToChannel cfg) = true)
  (Hin : inside (barycentric mx my (Vtop cfg) (Vleft cfg) (Vright cfg))
         = true) :
  snd (handlePoint cfg mx my st) = true
  /\ fst (drawFromRGB cfg (fst (handlePoint cfg mx my st))) =n= Fin mx
  /\ snd (drawFromRGB cfg (fst (handlePoint cfg mx my st))) =n= Fin my.
Proof.
  assert (Hacc : snd (handlePoint cfg mx my st) = true).
  { unfold handlePoint. rewrite Hin. cbn [negb].
    now destruct (baryToRGB _ _) as [[r g] b]. }
  split; [exact Hacc|].
  now apply click_then_draw.
Qed.

Lemma accepted_click_is_drawn_witness :
  snd (handlePoint cfg_scenario 40 60 initial_state) = true
  /\ fst (drawFromRGB cfg_scenario
            (fst (handlePoint cfg_scenario 40 60 initial_state))) =n= Fin 40
  /\ snd (drawFromRGB cfg_scenario
            (fst (handlePoint cfg_scenario 40 60 initial_state))) =n= Fin 60.
Proof.
  apply (accepted_click_is_drawn cfg_scenario 40 60 initial_state);
    vm_compute; reflexivity.
Defined.

(** X5: with a channel map that is a bijection and finite weights whose
    sum is at least 1e-12, relabelling to channels and back returns the
    weights divided by their sum, and so does relabelling a channel triple
    to vertices and back. *)
Theorem baryToRGB_rgbToBary (w0 w1 w2 : Q) (map : chanmap)
  (Hbij : is_bijection map = true)
  (Hsum : 0.000000000001 <= w0 + w1 + w2) :
  vec3_eq (rgbToBary (baryToRGB (Fin w0, Fin w1, Fin w2) map) map)
          (Fin (w0 / (w0 + w1 + w2)), Fin (w1 / (w0 + w1 + w2)),
           Fin (w2 / (w0 + w1 + w2)))
  /\ vec3_eq (baryToRGB (rgbToBary (Fin w0, Fin w1, Fin w2) map) map)
             (Fin (w0 / (w0 + w1 + w2)), Fin (w1 / (w0 + w1 + w2)),
              Fin (w2 / (w0 + w1 + w2))).
Proof.
  assert (Hnz : ~ w0 + w1 + w2 == 0) by lra.
  destruct map as [[m0 m1] m2].
  destruct m0, m1, m2; try discriminate Hbij; clear Hbij;
    (split; unfold baryToRGB, rgbToBary; cbn [set_chan get_chan];
     autorewrite with fin; rewrite Math_max_Fin;
     match goal with |- context [Qmax ?x ?e] =>
       assert (Hm : Qmax x e == x) by (apply Q.max_l; lra);
       assert (Hx : ~ x == 0) by (intros E; apply Hnz; rewrite <- E; ring);
       assert (Hs' : ~ Qmax x e == 0) by (rewrite Hm; exact Hx)
     end;
     rewrite !ndiv_fin by exact Hs';
     cbn [get_chan vec3_eq num_eq]; split_all; rewrite Hm; field;
     first [assumption | split; assumption]).
Qed.

Lemma baryToRGB_rgbToBary_witness :
  vec3_eq (rgbToBary (baryToRGB (Fin 0.2, Fin 0.3, Fin 0.5)
                        DEFAULT_vertexToChannel) DEFAULT_vertexToChannel)
          (Fin (0.2 / (0.2 + 0.3 + 0.5)), Fin (0.3 / (0.2 + 0.3 + 0.5)),
           Fin (0.5 / (0.2 + 0.3 + 0.5)))
  /\ vec3_eq (baryToRGB (rgbToBary (Fin 0.2, Fin 0.3, Fin 0.5)
                           DEFAULT_vertexToChannel) DEFAULT_vertexToChannel)
             (Fin (0.2 / (0.2 + 0.3 + 0.5)), Fin (0.3 / (0.2 + 0.3 + 0.5)),
              Fin (0.5 / (0.2 + 0.3 + 0.5))).
Proof.
  apply (baryToRGB_rgbToBary 0.2 0.3 0.5 DEFAULT_vertexToChannel).
  - reflexivity.
  - vm_compute. discriminate.
Defined.

(* ================================================================== *)
(** ** Further properties of the normaliser and the clamp *)

(** X6: for finite values whose sum is at least 1e-12, [norm3p] returns
    each value times 100 over the sum; the result sums to exactly 100 and
    normalising it again changes nothing. *)
Theorem norm3p_normalises (r g b : Q)
  (Hsum : 0.000000000001 <= r + g + b) :
  vec3_eq (norm3p (Fin r) (Fin g) (Fin b))
          (Fin (r * 100 / (r + g + b)), Fin (g * 100 / (r + g + b)),
           Fin (b * 100 / (r + g + b)))
  /\ vsum (norm3p (Fin r) (Fin g) (Fin b)) =n= Fin 100
  /\ vec3_eq (let '(r', g', b') := norm3p (Fin r) (Fin g) (Fin b) in
              norm3p r' g' b')
             (norm3p (Fin r) (Fin g) (Fin b)).
Proof.
  assert (Hnz : ~ r + g + b == 0) by lra.
  pose proof (Q.max_l _ _ Hsum) as Hm.
  rewrite norm3p_Fin. cbv beta iota. rewrite norm3p_Fin.
  unfold vsum. autorewrite with fin. unfold vec3_eq, num_eq.
  set (s := Qmax (r + g + b) 0.000000000001) in *.
  assert (Hs : ~ s == 0) by (rewrite Hm; exact Hnz).
  assert (E100 : r / s * 100 + g / s * 100 + b / s * 100 == 100).
  { rewrite Hm. field. exact Hnz. }
  assert (Hm2 : Qmax (r / s * 100 + g / s * 100 + b / s * 100)
                     0.000000000001 == 100).
  { rewrite E100. reflexivity. }
  split_all; try (rewrite Hm; field; exact Hnz); try exact E100;
    rewrite Hm2; field; exact Hs.
Qed.

Lemma norm3p_normalises_witness :
  vec3_eq (norm3p (Fin 1) (Fin 1) (Fin 2))
          (Fin (1 * 100 / (1 + 1 + 2)), Fin (1 * 100 / (1 + 1 + 2)),
           Fin (2 * 100 / (1 + 1 + 2)))
  /\ vsum (norm3p (Fin 1) (Fin 1) (Fin 2)) =n= Fin 100
  /\ vec3_eq (let '(r', g', b') := norm3p (Fin 1) (Fin 1) (Fin 2) in
              norm3p r' g' b')
             (norm3p (Fin 1) (Fin 1) (Fin 2)).
Proof.
  apply (norm3p_normalises 1 1 2). vm_compute. discriminate.
Defined.

(** X7: for finite values whose sum is at most 1e-12 (zero or negative
    sums included), [norm3p] divides by 1e-12 instead of the sum: each
    value is multiplied by 1e14 and the result sums to the input sum times
    1e14, not to 100. *)
Theorem norm3p_tiny_sum (r g b : Q)
  (Hsum : r + g + b <= 0.000000000001) :
  vec3_eq (norm3p (Fin r) (Fin g) (Fin b))
          (Fin (r * 100000000000000), Fin (g * 100000000000000),
           Fin (b * 100000000000000))
  /\ vsum (norm3p (Fin r) (Fin g) (Fin b))
     =n= Fin ((r + g + b) * 100000000000000).
Proof.
  pose proof (Q.max_r _ _ Hsum) as Hm.
  rewrite norm3p_Fin. unfold vsum. autorewrite with fin.
  unfold vec3_eq, num_eq.
  split_all; rewrite Hm; field.
Qed.

Lemma norm3p_tiny_sum_witness :
  vec3_eq (norm3p (Fin (-50)) (Fin 20) (Fin 20))
          (Fin (-50 * 100000000000000), Fin (20 * 100000000000000),
           Fin (20 * 100000000000000))
  /\ vsum (norm3p (Fin (-50)) (Fin 20) (Fin 20))
     =n= Fin ((-50 + 20 + 20) * 100000000000000).
Proof.
  apply (norm3p_tiny_sum (-50) 20 20). vm_compute. discriminate.
Defined.

(** X8: [clamp01p] returns [NaN] for [NaN], 100 for [+Infinity], 0 for
    [-Infinity], and for a finite [v] a value of [0,100] that is [v] itself
    when [v] is in [0,100]; clamping twice is clamping once. *)
Theorem clamp01p_cases (v : Q) (x : num) :
  clamp01p NaN = NaN
  /\ clamp01p PInf = Fin 100
  /\ clamp01p NInf = Fin 0
  /\ (exists c : Q, clamp01p (Fin v) = Fin c /\ 0 <= c /\ c <= 100
                    /\ (0 <= v <= 100 -> c == v)
                    /\ (v <= 0 -> c == 0) /\ (100 <= v -> c == 100))
  /\ clamp01p (clamp01p x) =n= clamp01p x.
Proof.
  split; [reflexivity|]. split; [reflexivity|]. split; [reflexivity|].
  split.
  - exists (clamp_0_100 v). split; [apply clamp01p_Fin|].
    destruct (clamp_0_100_range v) as [H0 H1].
    split; [exact H0|]. split; [exact H1|].
    unfold clamp_0_100. split_all.
    + intros [Hv0 Hv1]. rewrite (Q.min_r 100 v Hv1). now apply Q.max_r.
    + intros Hv. rewrite (Q.min_r 100 v) by lra. now apply Q.max_l.
    + intros Hv. rewrite (Q.min_l 100 v Hv). apply Q.max_r. discriminate.
  - destruct x as [q| | |]; try reflexivity.
    rewrite !clamp01p_Fin. simpl.
    destruct (clamp_0_100_range q) as [H0 H1].
    unfold clamp_0_100 at 1.
    rewrite (Q.min_r 100 _ H1). now apply Q.max_r.
Qed.

Lemma clamp01p_cases_witness :
  (exists c : Q, clamp01p (Fin 50) = Fin c /\ c == 50)
  /\ (exists c : Q, clamp01p (Fin (-3)) = Fin c /\ c == 0)
  /\ (exists c : Q, clamp01p (Fin 250) = Fin c /\ c == 100).
Proof.
  split_all.
  - destruct (clamp01p_cases 50 NaN)
      as (_ & _ & _ & (c & E & _ & _ & H & _ & _) & _).
    exists c. split; [exact E|]. apply H. split; discriminate.
  - destruct (clamp01p_cases (-3) NaN)
      as (_ & _ & _ & (c & E & _ & _ & _ & H & _) & _).
    exists c. split; [exact E|]. apply H. discriminate.
  - destruct (clamp01p_cases 250 NaN)
      as (_ & _ & _ & (c & E & _ & _ & _ & _ & H) & _).
    exists c. split; [exact E|]. apply H. discriminate.
Defined.

(* ================================================================== *)
(** ** Further properties of the field edit *)

(** X9: from finite non-negative fields whose two non-focus values are
    not both 0, and for a new value that is not [NaN], [rebalance]
    publishes three values of [0,100] that sum to exactly 100, and stores
    fractions that sum to exactly 1. *)
Theorem rebalance_valid_vector (focus : channel) (newVal : num) (st : state)
  (r0 g0 b0 nv : Q)
  (Hr : rEl st = Fin r0) (Hg : gEl st = Fin g0) (Hb : bEl st = Fin b0)
  (Hnv : clamp01p newVal = Fin nv)
  (Pr : 0 <= r0) (Pg : 0 <= g0) (Pb : 0 <= b0)
  (Hrem : ~ others_sum focus r0 g0 b0 == 0) :
  exists r g b : Q,
    vec3_eq (rebalance_vals focus newVal st) (Fin r, Fin g, Fin b)
    /\ vec3_eq (getRGB (rebalance focus newVal st))
               (Fin (r / 100), Fin (g / 100), Fin (b / 100))
    /\ (0 <= r /\ r <= 100) /\ (0 <= g /\ g <= 100) /\ (0 <= b /\ b <= 100)
    /\ r + g + b == 100
    /\ r / 100 + g / 100 + b / 100 == 1.
Proof.
  destruct (rebalance_vals_valid focus newVal st r0 g0 b0 nv
              Hr Hg Hb Hnv Pr Pg Pb Hrem)
    as (r & g & b & E & Rr & Rg & Rb & S).
  exists r, g, b. split; [exact E|]. split.
  - unfold rebalance.
    eapply vec3_eq_trans; [apply (fractions_compat _ r g b st st); exact E|].
    rewrite getRGB_setPerc. rewrite !ndiv_fin by discriminate.
    unfold vec3_eq, num_eq. split_all; reflexivity.
  - split_all; try tauto.
    setoid_replace (r / 100 + g / 100 + b / 100)%Q with ((r + g + b) / 100)%Q
      by field.
    rewrite S. reflexivity.
Qed.

Lemma rebalance_valid_vector_witness :
  exists r g b : Q,
    vec3_eq (rebalance_vals B (Fin 60) initial_state) (Fin r, Fin g, Fin b)
    /\ vec3_eq (getRGB (rebalance B (Fin 60) initial_state))
               (Fin (r / 100), Fin (g / 100), Fin (b / 100))
    /\ (0 <= r /\ r <= 100) /\ (0 <= g /\ g <= 100) /\ (0 <= b /\ b <= 100)
    /\ r + g + b == 100
    /\ r / 100 + g / 100 + b / 100 == 1.
Proof.
  apply (rebalance_valid_vector B (Fin 60) initial_state
           33.33 33.33 33.33 60);
    try (vm_compute; reflexivity); vm_compute; discriminate.
Defined.

(** X10: when the two non-focus fields do not sum to 0, [rebalance]
    multiplies both by the same factor [(100 - nv) / rem]: the published
    non-focus values are in the ratio of the two fields, and they sum to
    [100 - nv]. *)
Theorem rebalance_keeps_ratio (focus : channel) (newVal : num) (st : state)
  (r0 g0 b0 nv : Q)
  (Hr : rEl st = Fin r0) (Hg : gEl st = Fin g0) (Hb : bEl st = Fin b0)
  (Hnv : clamp01p newVal = Fin nv)
  (Hrem : ~ others_sum focus r0 g0 b0 == 0) :
  exists r g b : Q,
    vec3_eq (rebalance_vals focus newVal st) (Fin r, Fin g, Fin b)
    /\ match focus with
       | R => r == nv /\ g * b0 == b * g0 /\ g + b == 100 - nv
       | G => g == nv /\ r * b0 == b * r0 /\ r + b == 100 - nv
       | B => b == nv /\ r * g0 == g * r0 /\ r + g == 100 - nv
       end.
Proof.
  pose proof (rebalance_vals_scaled st r0 g0 b0 Hr Hg Hb newVal nv Hnv
                focus Hrem) as E.
  destruct focus; unfold others_sum in *; cbn [set_chan] in E;
    (eexists _, _, _; split; [exact E|]);
    split_all; try reflexivity; field; exact Hrem.
Qed.

Lemma rebalance_keeps_ratio_witness :
  exists r g b : Q,
    vec3_eq (rebalance_vals G (Fin 20) st_R10) (Fin r, Fin g, Fin b)
    /\ (g == 20 /\ r * (4500 # 100) == b * (1000 # 100)
        /\ r + b == 100 - 20).
Proof.
  apply (rebalance_keeps_ratio G (Fin 20) st_R10
           (1000 # 100) (4500 # 100) (4500 # 100) 20);
    try (vm_compute; reflexivity); vm_compute; discriminate.
Defined.



(** X12: the content of the focus field does not matter beyond the new
    value: when the two non-focus fields are finite and do not sum to 0,
    [rebalance] publishes the same vector whatever finite number or
    unparsable text ([NaN]) the focus field holds. *)
Theorem rebalance_ignores_focus_field (focus : channel) (newVal typed : num)
  (st : state) (r0 g0 b0 nv : Q)
  (Hr : rEl st = Fin r0) (Hg : gEl st = Fin g0) (Hb : bEl st = Fin b0)
  (Hnv : clamp01p newVal = Fin nv)
  (Hrem : ~ others_sum focus r0 g0 b0 == 0)
  (Htyped : typed <> PInf /\ typed <> NInf) :
  vec3_eq (rebalance_vals focus newVal (set_field focus typed st))
          (rebalance_vals focus newVal st).
Proof.
  assert (Hfin : exists t : Q,
             rebalance_vals focus newVal (set_field focus typed st)
             = rebalance_vals focus newVal (set_field focus (Fin t) st)).
  { destruct typed as [t| | |]; try tauto.
    - exists t. reflexivity.
    - exists 0. destruct focus; reflexivity. }
  destruct Hfin as (t & ->).
  pose proof (rebalance_vals_scaled st r0 g0 b0 Hr Hg Hb newVal nv Hnv
                focus Hrem) as E.
  apply vec3_eq_sym in E.
  destruct focus; unfold others_sum in *.
  - pose proof (rebalance_vals_scaled (set_field R (Fin t) st) t g0 b0
                  eq_refl Hg Hb newVal nv Hnv R Hrem) as E'.
    eapply vec3_eq_trans; [exact E'|exact E].
  - pose proof (rebalance_vals_scaled (set_field G (Fin t) st) r0 t b0
                  Hr eq_refl Hb newVal nv Hnv G Hrem) as E'.
    eapply vec3_eq_trans; [exact E'|exact E].
  - pose proof (rebalance_vals_scaled (set_field B (Fin t) st) r0 g0 t
                  Hr Hg eq_refl newVal nv Hnv B Hrem) as E'.
    eapply vec3_eq_trans; [exact E'|exact E].
Qed.

Lemma rebalance_ignores_focus_field_witness :
  vec3_eq (rebalance_vals R (Fin 50) (set_field R NaN initial_state))
          (rebalance_vals R (Fin 50) initial_state).
Proof.
  apply (rebalance_ignores_focus_field R (Fin 50) NaN initial_state
           33.33 33.33 33.33 50);
    try (vm_compute; reflexivity).
  - vm_compute. discriminate.
  - split; discriminate.
Defined.

(* ================================================================== *)
(** ** The session: fields, stored triple and pointer events *)

Lemma Qle_bool_compat (a a' b b' : Q) :
  a == a' -> b == b' -> Qle_bool a b = Qle_bool a' b'.
Proof.
  intros Ea Eb.
  destruct (Qle_bool a b) eqn:E1, (Qle_bool a' b') eqn:E2; try reflexivity.
  - apply Qle_bool_iff in E1. rewrite Ea, Eb in E1.
    apply Qle_bool_iff in E1. congruence.
  - apply Qle_bool_iff in E2. rewrite <- Ea, <- Eb in E2.
    apply Qle_bool_iff in E2. congruence.
Qed.

Lemma round2_compat (q q' : Q) : q == q' -> round2 q == round2 q'.
Proof.
  intros E. unfold round2.
  rewrite (Qle_bool_compat 0 0 q q' (Qeq_refl 0) E).
  assert (F : Qfloor (Qabs q * 100 + (1 # 2))
              = Qfloor (Qabs q' * 100 + (1 # 2))).
  { apply Qfloor_comp. now rewrite E. }
  rewrite F. reflexivity.
Qed.

Lemma toFixed2_compat (a b : num) : a =n= b -> toFixed2 a =n= toFixed2 b.
Proof.
  destruct a as [q| | |], b as [q'| | |]; simpl; try tauto.
  intros E.
  rewrite (Qle_bool_compat 1000000000000000000000 1000000000000000000000
             (Qabs q) (Qabs q') (Qeq_refl _)) by (now rewrite E).
  destruct (Qle_bool _ (Qabs q')); simpl; [exact E|].
  now apply round2_compat.
Qed.

(** A percentage over 100 and times 100 again is the percentage. *)
Lemma percent_back (x : num) : x / Fin 100 * Fin 100 =n= x.
Proof.
  destruct x as [q| | |]; try reflexivity.
  rewrite ndiv_fin by discriminate. simpl. field.
Qed.

(** After [setPerc] the confirmation text and the fields show the same
    three numbers. *)
Lemma setPerc_lockstep (r g b : num) (st : state) :
  vec3_eq (dialog_percent (setPerc r g b st)) (fields (setPerc r g b st)).
Proof.
  unfold dialog_percent, fields, setPerc. cbn [rgb rEl gEl bEl vec3_eq].
  split_all; apply toFixed2_compat, percent_back.
Qed.

Lemma handlePoint_lockstep (cfg : config) (mx my : Q) (st : state) :
  vec3_eq (dialog_percent st) (fields st) ->
  vec3_eq (dialog_percent (fst (handlePoint cfg mx my st)))
          (fields (fst (handlePoint cfg mx my st))).
Proof.
  intros H. unfold handlePoint.
  destruct (negb (inside _)); [exact H|].
  destruct (baryToRGB _ _) as [[r g] b]. apply setPerc_lockstep.
Qed.

Lemma step_lockstep (cfg : config) (s : session) (e : event) :
  vec3_eq (dialog_percent (weights s)) (fields (weights s)) ->
  vec3_eq (dialog_percent (weights (step cfg s e)))
          (fields (weights (step cfg s e))).
Proof.
  intros H. destruct e as [mx my|mx my| |mx my|focus typed]; simpl.
  - pose proof (handlePoint_lockstep cfg mx my (weights s) H) as K.
    destruct (handlePoint cfg mx my (weights s)) as [st hit]. exact K.
  - destruct (negb (dragging s)); [exact H|].
    now apply handlePoint_lockstep.
  - exact H.
  - now apply handlePoint_lockstep.
  - unfold on_input, rebalance.
    destruct (rebalance_vals _ _ _) as [[r g] b]. apply setPerc_lockstep.
Qed.


Lemma handlePoint_miss (cfg : config) (mx my : Q) (st : state) :
  inside (barycentric mx my (Vtop cfg) (Vleft cfg) (Vright cfg)) = false ->
  handlePoint cfg mx my st = (st, false).
Proof.
  intros H. unfold handlePoint. now rewrite H.
Qed.

Lemma handlePoint_hit (cfg : config) (mx my : Q) (st : state) :
  inside (barycentric mx my (Vtop cfg) (Vleft cfg) (Vright cfg)) = true ->
  snd (handlePoint cfg mx my st) = true.
Proof.
  intros H. unfold handlePoint. rewrite H. cbn [negb].
  now destruct (baryToRGB _ _) as [[r g] b].
Qed.

(** X14: a sequence of [mousedown], [mousemove], [click] and [mouseup]
    events whose positions all fall outside the triangle leaves the
    weight state as it was, and does not start a drag. *)
Theorem pointer_misses_change_nothing (cfg : config) (es : list event) :
  forall s : session,
    Forall (misses cfg) es ->
    weights (run cfg s es) = weights s
    /\ (dragging s = false -> dragging (run cfg s es) = false).
Proof.
  unfold run. induction es as [|e es IH]; intros s H; simpl.
  - split; auto.
  - inversion H as [|e' es' He Hes]; subst.
    destruct (IH (step cfg s e) Hes) as [IW ID].
    assert (Hstep : weights (step cfg s e) = weights s
                    /\ (dragging s = false
                        -> dragging (step cfg s e) = false)).
    { destruct e as [mx my|mx my| |mx my|focus typed]; simpl in He |- *.
      - rewrite (handlePoint_miss cfg mx my _ He). auto.
      - destruct (negb (dragging s)); [auto|].
        rewrite (handlePoint_miss cfg mx my _ He). auto.
      - auto.
      - rewrite (handlePoint_miss cfg mx my _ He). auto.
      - contradiction. }
    destruct Hstep as [SW SD]. split.
    + now rewrite IW.
    + intros D. apply ID. now apply SD.
Qed.

Lemma pointer_misses_change_nothing_witness :
  weights (run cfg_scenario initial_session
             [MouseDown 0 0; MouseMove 90 10; MouseUp; Click 200 200])
  = weights initial_session
  /\ (dragging initial_session = false ->
      dragging (run cfg_scenario initial_session
                  [MouseDown 0 0; MouseMove 90 10; MouseUp; Click 200 200])
      = false).
Proof.
  apply (pointer_misses_change_nothing cfg_scenario
           [MouseDown 0 0; MouseMove 90 10; MouseUp; Click 200 200]
           initial_session).
  apply Forall_cons; [vm_compute; reflexivity|].
  apply Forall_cons; [vm_compute; reflexivity|].
  apply Forall_cons; [exact I|].
  apply Forall_cons; [vm_compute; reflexivity|].
  apply Forall_nil.
Defined.

(** X15: a drag follows the pointer.  With a channel map that is a
    bijection, after a [mousedown] inside the triangle and a [mousemove]
    to another position inside it, the point drawn is the position of the
    [mousemove] and the drag is on; after [mouseup] a further [mousemove]
    changes nothing. *)
Theorem drag_follows_pointer (cfg : config) (s : session)
  (x1 y1 x2 y2 x3 y3 : Q)
  (Hbij : is_bijection (vertexToChannel cfg) = true)
  (Hin1 : inside (barycentric x1 y1 (Vtop cfg) (Vleft cfg) (Vright cfg))
          = true)
  (Hin2 : inside (barycentric x2 y2 (Vtop cfg) (Vleft cfg) (Vright cfg))
          = true) :
  fst (drawFromRGB cfg
         (weights (run cfg s [MouseDown x1 y1; MouseMove x2 y2])))
  =n= Fin x2
  /\ snd (drawFromRGB cfg
            (weights (run cfg s [MouseDown x1 y1; MouseMove x2 y2])))
     =n= Fin y2
  /\ dragging (run cfg s [MouseDown x1 y1; MouseMove x2 y2]) = true
  /\ weights (run cfg s [MouseDown x1 y1; MouseMove x2 y2;
                         MouseUp; MouseMove x3 y3])
     = weights (run cfg s [MouseDown x1 y1; MouseMove x2 y2]).
Proof.
  unfold run. cbn [fold_left].
  pose proof (handlePoint_hit cfg x1 y1 (weights s) Hin1) as Hhit.
  assert (E1 : step cfg s (MouseDown x1 y1)
               = mkSession (fst (handlePoint cfg x1 y1 (weights s))) true).
  { cbn [step]. destruct (handlePoint cfg x1 y1 (weights s)) as [st hit].
    cbn [snd] in Hhit. now subst. }
  rewrite E1. cbn [step dragging weights negb].
  set (st1 := fst (handlePoint cfg x1 y1 (weights s))).
  pose proof (click_then_draw cfg x2 y2 st1 Hbij
                (handlePoint_hit cfg x2 y2 st1 Hin2)) as [Dx Dy].
  split_all; auto.
Qed.

Lemma drag_follows_pointer_witness :
  fst (drawFromRGB cfg_scenario
         (weights (run cfg_scenario initial_session
                     [MouseDown 40 60; MouseMove 60 80])))
  =n= Fin 60
  /\ snd (drawFromRGB cfg_scenario
            (weights (run cfg_scenario initial_session
                        [MouseDown 40 60; MouseMove 60 80])))
     =n= Fin 80
  /\ dragging (run cfg_scenario initial_session
                 [MouseDown 40 60; MouseMove 60 80]) = true
  /\ weights (run cfg_scenario initial_session
                [MouseDown 40 60; MouseMove 60 80; MouseUp; MouseMove 0 0])
     = weights (run cfg_scenario initial_session
                  [MouseDown 40 60; MouseMove 60 80]).
Proof.
  apply (drag_follows_pointer cfg_scenario initial_session 40 60 60 80 0 0);
    vm_compute; reflexivity.
Defined.

(* ================================================================== *)
(** ** Further properties of the vertex locator *)

Lemma collect_nonempty (data : list Z) (w h : Z) :
  (exists x y a, (0 <= x < w)%Z /\ (0 <= y < h)%Z
                 /\ alpha_at data w x y = Some a /\ (30 <= a)%Z) ->
  collect data w h <> [].
Proof.
  intros (x & y & a & Hx & Hy & Ha & Hth) E.
  assert (Hin : In (pixel x y) (collect data w h)).
  { apply In_collect. exists x, y. repeat split; try tauto.
    unfold visible. rewrite Ha. unfold TH. lia. }
  rewrite E in Hin. contradiction.
Qed.

Lemma detect_nonempty (data : list Z) (w h : Z) :
  collect data w h <> [] ->
  detectVerticesByAlpha data w h
  = {| top := extreme (collect data w h) w h KeyY true 3;
       left := extreme (collect data w h) w h KeyX true 3;
       right := extreme (collect data w h) w h KeyX false 3 |}.
Proof.
  intros Hne. unfold detectVerticesByAlpha.
  destruct (collect data w h); [contradiction|reflexivity].
Qed.

(** With a visible pixel, the three vertices are collected points. *)
Lemma detect_vertices_collected (data : list Z) (w h : Z) :
  collect data w h <> [] ->
  In (top (detectVerticesByAlpha data w h)) (collect data w h)
  /\ In (left (detectVerticesByAlpha data w h)) (collect data w h)
  /\ In (right (detectVerticesByAlpha data w h)) (collect data w h).
Proof.
  intros Hne. rewrite (detect_nonempty data w h Hne). cbn [top left right].
  destruct (extreme_top _ w h Hne) as (ymin & _ & Ht & _).
  destruct (extreme_side _ w h Hne true) as (xmin & _ & Hl & _).
  destruct (extreme_side _ w h Hne false) as (xmax & _ & Hr & _).
  apply In_in_band in Ht, Hl, Hr. tauto.
Qed.

Lemma visible_alpha (data : list Z) (w x y : Z) :
  visible data w x y = true ->
  exists a, alpha_at data w x y = Some a /\ (30 <= a)%Z.
Proof.
  unfold visible. destruct (alpha_at data w x y) as [a|]; [|discriminate].
  intros H. exists a. split; [reflexivity|]. unfold TH in H. lia.
Qed.

(** X16: when some pixel has alpha 30 or more, each of the three vertices
    returned is a pixel of the image, at integer coordinates [0 <= x < w],
    [0 <= y < h], whose own alpha is 30 or more. *)
Theorem detect_vertices_are_visible (data : list Z) (w h : Z)
  (Hvis : exists x y a, (0 <= x < w)%Z /\ (0 <= y < h)%Z
                        /\ alpha_at data w x y = Some a /\ (30 <= a)%Z) :
  forall v : point,
    v = top (detectVerticesByAlpha data w h)
    \/ v = left (detectVerticesByAlpha data w h)
    \/ v = right (detectVerticesByAlpha data w h) ->
    exists x y a, (0 <= x < w)%Z /\ (0 <= y < h)%Z
                  /\ alpha_at data w x y = Some a /\ (30 <= a)%Z
                  /\ v = pixel x y.
Proof.
  intros v Hv.
  pose proof (collect_nonempty data w h Hvis) as Hne.
  destruct (detect_vertices_collected data w h Hne) as (Ht & Hl & Hr).
  assert (Hin : In v (collect data w h))
    by (destruct Hv as [->|[->| ->]]; assumption).
  apply In_collect in Hin. destruct Hin as (x & y & Hx & Hy & V & ->).
  destruct (visible_alpha data w x y V) as (a & Ha & Hth).
  exists x, y, a. auto.
Qed.

Lemma detect_vertices_are_visible_witness :
  exists x y a, (0 <= x < 4)%Z /\ (0 <= y < 2)%Z
                /\ alpha_at img_glyph 4 x y = Some a /\ (30 <= a)%Z
                /\ top (detectVerticesByAlpha img_glyph 4 2) = pixel x y.
Proof.
  apply (detect_vertices_are_visible img_glyph 4 2).
  - exists 1%Z, 0%Z, 255%Z. vm_compute. intuition discriminate.
  - left. reflexivity.
Defined.

Lemma filter_all {X : Type} (f : X -> bool) (l : list X) :
  (forall x, In x l -> f x = true) -> filter f l = l.
Proof.
  induction l as [|a l IH]; intros H; simpl; [reflexivity|].
  rewrite (H a) by (now left). f_equal. apply IH.
  intros x Hx. apply H. now right.
Qed.

(** When every collected point is within 3 of every other on [x], both
    side bands are the whole set and the two side vertices coincide. *)
Lemma narrow_left_is_right (pts : list point) (w h : Z) :
  pts <> [] ->
  (forall p q, In p pts -> In q pts -> Qabs (pt_x p - pt_x q) <= 3) ->
  extreme pts w h KeyX true 3 = extreme pts w h KeyX false 3.
Proof.
  intros Hne Hnarrow.
  destruct (extreme_value pts w h Hne KeyX true) as (xmin & [Hmin _] & E1).
  destruct (extreme_value pts w h Hne KeyX false) as (xmax & [Hmax _] & E2).
  assert (B1 : in_band KeyX xmin 3 pts = pts).
  { destruct Hmin as (q & Hq & <-). apply filter_all. intros p Hp.
    apply Qle_bool_iff. now apply Hnarrow. }
  assert (B2 : in_band KeyX xmax 3 pts = pts).
  { destruct Hmax as (q & Hq & <-). apply filter_all. intros p Hp.
    apply Qle_bool_iff. now apply Hnarrow. }
  rewrite E1, E2, B1, B2. destruct pts; [contradiction|reflexivity].
Qed.

(** X17: when the visible pixels span at most 3 pixels horizontally, the
    left and right vertices returned are the same point: the triangle has
    signed area 0, on the canvas too, and [handlePoint] of a session built
    on it rejects every pointer position. *)
Theorem detect_narrow_glyph (data : list Z) (rc : rect) (map : chanmap)
  (Hvis : exists x y a,
      (0 <= x < rect_w rc)%Z /\ (0 <= y < rect_h rc)%Z
      /\ alpha_at data (rect_w rc) x y = Some a /\ (30 <= a)%Z)
  (Hnarrow : forall p q,
      In p (collect data (rect_w rc) (rect_h rc)) ->
      In q (collect data (rect_w rc) (rect_h rc)) ->
      Qabs (pt_x p - pt_x q) <= 3) :
  left (detectVerticesByAlpha data (rect_w rc) (rect_h rc))
  = right (detectVerticesByAlpha data (rect_w rc) (rect_h rc))
  /\ signedArea (Vtop (session_config rc data map))
                (Vleft (session_config rc data map))
                (Vright (session_config rc data map)) == 0
  /\ (forall mx my st,
        handlePoint (session_config rc data map) mx my st = (st, false)).
Proof.
  pose proof (collect_nonempty data _ _ Hvis) as Hne.
  assert (E : left (detectVerticesByAlpha data (rect_w rc) (rect_h rc))
              = right (detectVerticesByAlpha data (rect_w rc) (rect_h rc))).
  { rewrite (detect_nonempty data _ _ Hne). cbn [left right].
    now apply narrow_left_is_right. }
  assert (A : signedArea (Vtop (session_config rc data map))
                (Vleft (session_config rc data map))
                (Vright (session_config rc data map)) == 0).
  { unfold session_config. cbn [Vtop Vleft Vright]. rewrite E.
    unfold signedArea, area. ring. }
  split; [exact E|]. split; [exact A|].
  intros mx my st. unfold handlePoint.
  now rewrite (inside_degenerate mx my _ _ _ A).
Qed.

Lemma detect_narrow_glyph_witness :
  left (detectVerticesByAlpha img_glyph (rect_w rc_glyph) (rect_h rc_glyph))
  = right (detectVerticesByAlpha img_glyph (rect_w rc_glyph)
             (rect_h rc_glyph))
  /\ signedArea
       (Vtop (session_config rc_glyph img_glyph DEFAULT_vertexToChannel))
       (Vleft (session_config rc_glyph img_glyph DEFAULT_vertexToChannel))
       (Vright (session_config rc_glyph img_glyph DEFAULT_vertexToChannel))
     == 0
  /\ (forall mx my st,
        handlePoint (session_config rc_glyph img_glyph
                       DEFAULT_vertexToChannel) mx my st = (st, false)).
Proof.
  apply (detect_narrow_glyph img_glyph rc_glyph DEFAULT_vertexToChannel).
  - exists 1%Z, 0%Z, 255%Z. vm_compute. intuition discriminate.
  - intros p q Hp Hq. vm_compute in Hp, Hq.
    intuition subst; vm_compute; discriminate.
Defined.

Lemma inject_Z_pred (n : Z) : inject_Z (n - 1) == inject_Z n - 1.
Proof.
  unfold Z.sub. rewrite inject_Z_plus. reflexivity.
Qed.

(** X18: the fallback triangle of an image without visible pixel has
    signed area [-(w-1)*(h-1)]: it is degenerate exactly when the image is
    one pixel wide or one pixel high. *)
Theorem fallback_triangle_area (data : list Z) (w h : Z)
  (Hnone : forall x y a, (0 <= x < w)%Z -> (0 <= y < h)%Z ->
                         alpha_at data w x y = Some a -> (a < 30)%Z) :
  signedArea (top (detectVerticesByAlpha data w h))
             (left (detectVerticesByAlpha data w h))
             (right (detectVerticesByAlpha data w h))
  == - inject_Z ((w - 1) * (h - 1))
  /\ (signedArea (top (detectVerticesByAlpha data w h))
                 (left (detectVerticesByAlpha data w h))
                 (right (detectVerticesByAlpha data w h)) == 0
      <-> w = 1%Z \/ h = 1%Z).
Proof.
  assert (Hnil : collect data w h = []).
  { apply collect_nil. intros x y Hx Hy. unfold visible.
    destruct (alpha_at data w x y) as [a|] eqn:E; [|reflexivity].
    specialize (Hnone x y a Hx Hy E). unfold TH. lia. }
  unfold detectVerticesByAlpha. rewrite Hnil. cbn [top left right].
  assert (A : signedArea (mkPoint (inject_Z w / 2) 0)
                (mkPoint 0 (inject_Z (h - 1)))
                (mkPoint (inject_Z (w - 1)) (inject_Z (h - 1)))
              == - inject_Z ((w - 1) * (h - 1))).
  { unfold signedArea, area. cbn [pt_x pt_y].
    rewrite inject_Z_mult, !inject_Z_pred. field. }
  split; [exact A|]. rewrite A. split.
  - intros E.
    assert (E' : inject_Z ((w - 1) * (h - 1)) == 0) by lra.
    unfold Qeq in E'. cbn [inject_Z Qnum Qden] in E'.
    rewrite Z.mul_1_r in E'. apply Z.mul_eq_0 in E'. lia.
  - intros [-> | ->]; [reflexivity|].
    rewrite Z.sub_diag, Z.mul_0_r. reflexivity.
Qed.

Lemma fallback_triangle_area_witness :
  signedArea (top (detectVerticesByAlpha img_transparent 2 2))
             (left (detectVerticesByAlpha img_transparent 2 2))
             (right (detectVerticesByAlpha img_transparent 2 2))
  == - inject_Z ((2 - 1) * (2 - 1))
  /\ (signedArea (top (detectVerticesByAlpha img_transparent 2 2))
                 (left (detectVerticesByAlpha img_transparent 2 2))
                 (right (detectVerticesByAlpha img_transparent 2 2)) == 0
      <-> 2%Z = 1%Z \/ 2%Z = 1%Z).
Proof.
  apply (fallback_triangle_area img_transparent 2 2).
  intros x y a Hx Hy.
  assert (Cx : x = 0%Z \/ x = 1%Z) by lia.
  assert (Cy : y = 0%Z \/ y = 1%Z) by lia.
  destruct Cx as [-> | ->], Cy as [-> | ->]; vm_compute;
    intros E; injection E as <-; reflexivity.
Defined.

(* ================================================================== *)
(** ** The drawing rectangle *)

Lemma floor_lower (m : Z) (q : Q) : inject_Z m <= q -> (m <= Qfloor q)%Z.
Proof.
  intros H. rewrite <- (Qfloor_Z m). now apply Qfloor_resp_le.
Qed.

Lemma floor_upper (m : Z) (q : Q) : q < inject_Z m -> (Qfloor q < m)%Z.
Proof.
  intros H. rewrite Zlt_Qlt.
  eapply Qle_lt_trans; [apply Qfloor_le|exact H].
Qed.

Lemma inject_Z_sub (a b : Z) : inject_Z (a - b) == inject_Z a - inject_Z b.
Proof.
  unfold Z.sub. rewrite inject_Z_plus, inject_Z_opp. reflexivity.
Qed.

(** A side of the image scaled by [min(a, b) * 0.7], where [a] is the
    room over that side, is within 0 and 0.7 times the room. *)
Lemma scaled_side (room side : Z) (other : Q) :
  (0 <= room)%Z -> (0 < side)%Z -> 0 <= other ->
  0 <= inject_Z side
       * (Qmin (inject_Z room / inject_Z side) other * 0.7)
  /\ inject_Z side * (Qmin (inject_Z room / inject_Z side) other * 0.7)
     <= 0.7 * inject_Z room.
Proof.
  intros Hroom Hside Hother.
  assert (Hs : 0 < inject_Z side) by (change 0 with (inject_Z 0);
                                      rewrite <- Zlt_Qlt; assumption).
  assert (Hr : 0 <= inject_Z room) by (change 0 with (inject_Z 0);
                                       rewrite <- Zle_Qle; assumption).
  set (a := (inject_Z room / inject_Z side)%Q).
  assert (Ha : 0 <= a).
  { apply Qle_shift_div_l; [exact Hs|]. lra. }
  assert (Hm0 : 0 <= Qmin a other) by (apply Q.min_glb; assumption).
  assert (Hma : Qmin a other <= a) by apply Q.le_min_l.
  assert (Hsa : inject_Z side * a == inject_Z room).
  { unfold a. field. lra. }
  assert (Hsm : inject_Z side * Qmin a other <= inject_Z room).
  { rewrite <- Hsa. apply Qmult_le_l; assumption. }
  assert (Hsm0 : 0 <= inject_Z side * Qmin a other).
  { apply Qmult_le_0_compat; [lra|exact Hm0]. }
  split.
  - setoid_replace (inject_Z side * (Qmin a other * 0.7))%Q
      with (0.7 * (inject_Z side * Qmin a other))%Q by ring.
    lra.
  - setoid_replace (inject_Z side * (Qmin a other * 0.7))%Q
      with (0.7 * (inject_Z side * Qmin a other))%Q by ring.
    lra.
Qed.

Lemma rounded_side (room : Z) (t : Q) :
  (0 <= room)%Z -> 0 <= t -> t <= 0.7 * inject_Z room ->
  (0 <= Math_round t <= room)%Z.
Proof.
  intros Hroom H0 H1.
  assert (Hr : 0 <= inject_Z room) by (change 0 with (inject_Z 0);
                                       rewrite <- Zle_Qle; assumption).
  unfold Math_round. split.
  - apply floor_lower. change (inject_Z 0) with 0. lra.
  - assert (L : (Qfloor (t + (1 # 2)) < room + 1)%Z).
    { apply floor_upper. rewrite inject_Z_plus.
      change (inject_Z 1) with 1. lra. }
    lia.
Qed.

(** X19: for a canvas of at least 40 by 60 and an image of positive size,
    the drawing rectangle lies inside the canvas with its margins: its
    width is at most [canvas.width - 40], its height at most
    [canvas.height - 60], it starts at [x >= 20], [y >= 30] and ends at
    [x + w <= canvas.width - 20], [y + h <= canvas.height - 30]. *)
Theorem layout_fits_canvas (cw ch iw ih : Z)
  (Hcw : (40 <= cw)%Z) (Hch : (60 <= ch)%Z)
  (Hiw : (0 < iw)%Z) (Hih : (0 < ih)%Z) :
  (0 <= rect_w (layout cw ch iw ih) <= cw - 40)%Z
  /\ (0 <= rect_h (layout cw ch iw ih) <= ch - 60)%Z
  /\ (20 <= rect_x (layout cw ch iw ih))%Z
  /\ (rect_x (layout cw ch iw ih) + rect_w (layout cw ch iw ih)
      <= cw - 20)%Z
  /\ (30 <= rect_y (layout cw ch iw ih))%Z
  /\ (rect_y (layout cw ch iw ih) + rect_h (layout cw ch iw ih)
      <= ch - 30)%Z.
Proof.
  unfold layout, padTop, padBottom. cbn [rect_x rect_y rect_w rect_h].
  replace (ch - 30 - 30)%Z with (ch - 60)%Z by lia.
  set (a := (inject_Z (cw - 40) / inject_Z iw)%Q).
  set (b := (inject_Z (ch - 60) / inject_Z ih)%Q).
  assert (Hiq : 0 < inject_Z iw) by (change 0 with (inject_Z 0);
                                     rewrite <- Zlt_Qlt; assumption).
  assert (Hhq : 0 < inject_Z ih) by (change 0 with (inject_Z 0);
                                     rewrite <- Zlt_Qlt; assumption).
  assert (Ha : 0 <= a).
  { apply Qle_shift_div_l; [exact Hiq|]. rewrite Qmult_0_l.
    change 0 with (inject_Z 0). rewrite <- Zle_Qle. lia. }
  assert (Hb : 0 <= b).
  { apply Qle_shift_div_l; [exact Hhq|]. rewrite Qmult_0_l.
    change 0 with (inject_Z 0). rewrite <- Zle_Qle. lia. }
  destruct (scaled_side (cw - 40) iw b ltac:(lia) Hiw Hb) as [W0 W1].
  assert (Hmin : Qmin a b == Qmin b a) by apply Q.min_comm.
  destruct (scaled_side (ch - 60) ih a ltac:(lia) Hih Ha) as [H0 H1].
  fold a in W0, W1. fold b in H0, H1. rewrite <- Hmin in H0, H1.
  set (w := Math_round (inject_Z iw * (Qmin a b * 0.7))).
  set (h := Math_round (inject_Z ih * (Qmin a b * 0.7))).
  assert (Rw : (0 <= w <= cw - 40)%Z)
    by (apply rounded_side; [lia|exact W0|exact W1]).
  assert (Rh : (0 <= h <= ch - 60)%Z)
    by (apply rounded_side; [lia|exact H0|exact H1]).
  set (x := Math_floor (inject_Z (cw - w) / 2)).
  set (u := Math_floor (inject_Z (ch - 60 - h) * 0.5)).
  assert (Xlo : (20 <= x)%Z).
  { apply floor_lower. apply Qle_shift_div_l; [reflexivity|].
    change (inject_Z 20 * 2)%Q with (inject_Z 40). rewrite <- Zle_Qle.
    lia. }
  assert (Xhi : (2 * x <= cw - w)%Z).
  { rewrite Zle_Qle, inject_Z_mult.
    pose proof (Qfloor_le (inject_Z (cw - w) / 2)) as F.
    fold (Math_floor (inject_Z (cw - w) / 2)) in F. fold x in F.
    change (inject_Z 2) with 2%Q.
    apply (Qmult_le_l _ _ 2) in F; [|reflexivity].
    eapply Qle_trans; [exact F|]. field_simplify. apply Qle_refl. }
  assert (Ulo : (0 <= u)%Z).
  { apply floor_lower. change (inject_Z 0) with 0.
    apply Qmult_le_0_compat; [|discriminate].
    change 0 with (inject_Z 0). rewrite <- Zle_Qle. lia. }
  assert (Uhi : (u <= ch - 60 - h)%Z).
  { rewrite Zle_Qle.
    pose proof (Qfloor_le (inject_Z (ch - 60 - h) * 0.5)) as F.
    fold (Math_floor (inject_Z (ch - 60 - h) * 0.5)) in F. fold u in F.
    assert (P : 0 <= inject_Z (ch - 60 - h))
      by (change 0 with (inject_Z 0); rewrite <- Zle_Qle; lia).
    lra. }
  repeat split; lia.
Qed.

Lemma layout_fits_canvas_witness :
  (0 <= rect_w (layout 600 520 800 700) <= 600 - 40)%Z
  /\ (0 <= rect_h (layout 600 520 800 700) <= 520 - 60)%Z
  /\ (20 <= rect_x (layout 600 520 800 700))%Z
  /\ (rect_x (layout 600 520 800 700) + rect_w (layout 600 520 800 700)
      <= 600 - 20)%Z
  /\ (30 <= rect_y (layout 600 520 800 700))%Z
  /\ (rect_y (layout 600 520 800 700) + rect_h (layout 600 520 800 700)
      <= 520 - 30)%Z.
Proof.
  apply (layout_fits_canvas 600 520 800 700); lia.
Defined.

(** X20: when some pixel of the drawn image has alpha 30 or more, the
    three screen vertices of the session lie inside the drawing rectangle:
    [x <= V.x < x + w] and [y <= V.y < y + h]. *)
Theorem session_vertices_in_rect (rc : rect) (data : list Z) (map : chanmap)
  (Hvis : exists x y a,
      (0 <= x < rect_w rc)%Z /\ (0 <= y < rect_h rc)%Z
      /\ alpha_at data (rect_w rc) x y = Some a /\ (30 <= a)%Z) :
  forall V : point,
    V = Vtop (session_config rc data map)
    \/ V = Vleft (session_config rc data map)
    \/ V = Vright (session_config rc data map) ->
    inject_Z (rect_x rc) <= pt_x V
    /\ pt_x V < inject_Z (rect_x rc + rect_w rc)
    /\ inject_Z (rect_y rc) <= pt_y V
    /\ pt_y V < inject_Z (rect_y rc + rect_h rc).
Proof.
  intros V HV.
  pose proof (collect_nonempty data _ _ Hvis) as Hne.
  destruct (detect_vertices_collected data _ _ Hne) as (Ht & Hl & Hr).
  assert (Hloc : exists v, In v (collect data (rect_w rc) (rect_h rc))
                           /\ V = on_canvas rc v).
  { unfold session_config in HV. cbn [Vtop Vleft Vright] in HV.
    destruct HV as [->|[->| ->]]; eauto. }
  destruct Hloc as (v & Hv & ->).
  apply In_collect in Hv. destruct Hv as (x & y & Hx & Hy & _ & ->).
  unfold on_canvas, pixel. cbn [pt_x pt_y].
  rewrite !inject_Z_plus.
  assert (X0 : inject_Z 0 <= inject_Z x) by (rewrite <- Zle_Qle; lia).
  assert (X1 : inject_Z x < inject_Z (rect_w rc))
    by (rewrite <- Zlt_Qlt; lia).
  assert (Y0 : inject_Z 0 <= inject_Z y) by (rewrite <- Zle_Qle; lia).
  assert (Y1 : inject_Z y < inject_Z (rect_h rc))
    by (rewrite <- Zlt_Qlt; lia).
  change (inject_Z 0) with 0%Q in X0, Y0.
  split_all; lra.
Qed.

Lemma session_vertices_in_rect_witness :
  inject_Z (rect_x rc_glyph)
  <= pt_x (Vtop (session_config rc_glyph img_glyph DEFAULT_vertexToChannel))
  /\ pt_x (Vtop (session_config rc_glyph img_glyph DEFAULT_vertexToChannel))
     < inject_Z (rect_x rc_glyph + rect_w rc_glyph)
  /\ inject_Z (rect_y rc_glyph)
     <= pt_y (Vtop (session_config rc_glyph img_glyph
                      DEFAULT_vertexToChannel))
  /\ pt_y (Vtop (session_config rc_glyph img_glyph DEFAULT_vertexToChannel))
     < inject_Z (rect_y rc_glyph + rect_h rc_glyph).
Proof.
  apply (session_vertices_in_rect rc_glyph img_glyph
           DEFAULT_vertexToChannel).
  - exists 1%Z, 0%Z, 255%Z. vm_compute. intuition discriminate.
  - left. reflexivity.
Defined.
